(** * Bowman tracker front end: request layer, candle synthesis,
      chart fallback and service worker

    A shallow embedding of [frontend/js/app.js] (the request layer
    [fetchAPI], the candlestick transform and the chart fallback logic of
    [updateCandlestickChart], [initChart] and [renderFallbackChart]) and of
    the fetch handler of [frontend/sw.js].

    Conventions of the embedding:
    - JavaScript numbers that hold integers (epoch milliseconds, HTTP
      status codes, delays) are [Z]; prices are exact rationals [Q];
    - a JavaScript [Map] is a [gmap]; an object literal whose key order is
      observable is an association list;
    - a promise is an entry of a promise table, addressed by its index;
    - code that can throw lives in a state-and-exception monad. *)

From Stdlib Require Import ZArith QArith Qminmax Lia Lqa Sorted.
From stdpp Require Import gmap strings list sorting.

Close Scope Q_scope.
Open Scope Z_scope.

(** JSON values, as produced by [response.json()] and consumed by
    [JSON.stringify]. No induction principle is needed for them. *)
#[local] Unset Elimination Schemes.
Inductive json : Type :=
| JNull
| JBool (b : bool)
| JNumber (q : Q)
| JString (s : string)
| JArray (items : list json)
| JObject (fields : list (string * json)).
#[local] Set Elimination Schemes.

(* ====================================================================== *)
(** * The request layer: [fetchWithTimeout] and [fetchAPI] *)
(* ====================================================================== *)
Module Fetch.

Definition API_TIMEOUT : Z := 10000.
Definition MAX_RETRIES : nat := 2.
Definition cacheTimeout : Z := 30000.

(** What one call of [fetchWithTimeout] followed by [response.json()] can
    meet: a response with a status (its body parses or it does not), a
    rejected [fetch], or the abort fired after [API_TIMEOUT]. *)
Inductive Attempt : Type :=
| Response (status : Z) (body : option json)
| NetworkFailure
| Aborted.

(** The [Error] values the loop can hold in [lastError]. *)
Inductive FetchError : Type :=
| HttpError (status : Z)      (* new Error(`HTTP ${response.status}`) *)
| TimedOut                    (* new Error('Request timed out') *)
| NetworkError                (* the rejection of fetch, rethrown *)
| BodyError.                  (* the rejection of response.json() *)

(** [response.ok]: the status is in the range 200-299. *)
Definition ok (status : Z) : bool := (200 <=? status) && (status <=? 299).

(** [fetchWithTimeout]: the response, or the error thrown: the abort is
    turned into [Request timed out], any other rejection is rethrown. *)
Definition fetchWithTimeout (a : Attempt) : FetchError + (Z * option json) :=
  match a with
  | Response status body => inr (status, body)
  | Aborted => inl TimedOut
  | NetworkFailure => inl NetworkError
  end.

(** The [try] block of one loop iteration: [inr data] when it reaches
    [return data], [inl error] when it throws. The two [throw] statements
    under [!response.ok] are kept apart as in the source. *)
Definition tryAttempt (a : Attempt) : FetchError + json :=
  match fetchWithTimeout a with
  | inl error => inl error
  | inr (status, body) =>
      if negb (ok status) then
        if (400 <=? status) && (status <? 500)
        then inl (HttpError status)
        else inl (HttpError status)
      else
        match body with
        | Some data => inr data
        | None => inl BodyError
        end
  end.

(** What the request promise does that the outside can observe. *)
Inductive Effect : Type :=
| NetCall (attempt : nat)     (* fetchWithTimeout of this attempt *)
| Sleep (ms : Z).             (* setTimeout(resolve, ms) awaited *)

(** How a promise settles. [Rejected None] is [throw undefined]. *)
Inductive Outcome : Type :=
| Resolved (data : json)
| Rejected (error : option FetchError).

(** [for (let attempt = 0; attempt <= retries; attempt++)]: [remaining]
    counts the iterations left, [S retries - attempt]; [net attempt] is
    what the network answers to that attempt. *)
Fixpoint requestLoop (net : nat -> Attempt) (retries : nat)
    (remaining attempt : nat) (lastError : option FetchError)
    : list Effect * Outcome :=
  match remaining with
  | O => ([], Rejected lastError)
  | S remaining' =>
      match tryAttempt (net attempt) with
      | inr data => ([NetCall attempt], Resolved data)
      | inl error =>
          let wait :=
            if (attempt <? retries)%nat
            then [Sleep (500 * 2 ^ Z.of_nat attempt)]
            else [] in
          let '(effects, outcome) :=
            requestLoop net retries remaining' (S attempt) (Some error) in
          (NetCall attempt :: wait ++ effects, outcome)
      end
  end.

(** The body of [requestPromise]. *)
Definition request (net : nat -> Attempt) (retries : nat)
    : list Effect * Outcome :=
  requestLoop net retries (S retries) 0%nat None.

Definition netCalls (effects : list Effect) : list nat :=
  omap (fun e => match e with NetCall a => Some a | Sleep _ => None end) effects.

Definition sleeps (effects : list Effect) : list Z :=
  omap (fun e => match e with Sleep ms => Some ms | NetCall _ => None end) effects.

(** ** Shared state: [state.cache], [state.pendingRequests] and the
       request promises created so far *)

Record CacheEntry : Type := { data : json; timestamp : Z }.

(** One request promise: the key it was made for, the [retries] of the
    call that made it, how it settled (if it has), and whether the
    [finally] of the call that made it has run. *)
Record Promise : Type := {
  key : string;
  retries_of : nat;
  settled : option Outcome;
  finalized : bool
}.

Record State : Type := {
  cache : gmap string CacheEntry;
  pendingRequests : gmap string nat;
  promises : list Promise
}.

Definition initial : State :=
  {| cache := ∅; pendingRequests := ∅; promises := [] |}.

(** What a call of [fetchAPI] hands back before anything is awaited: the
    cached data, or the request promise it awaits or returns. *)
Inductive Reply : Type :=
| FromCache (d : json)
| Await (handle : nat).

(** The part of [fetchAPI] from the pending-request check on. A new
    request promise takes the next index of the promise table; its first
    [fetchWithTimeout] is issued as the promise is created. *)
Definition joinOrStart (cacheKey : string) (retries : nat) (s : State)
    : Reply * State :=
  match pendingRequests s !! cacheKey with
  | Some handle => (Await handle, s)
  | None =>
      let handle := length (promises s) in
      (Await handle,
       {| cache := cache s;
          pendingRequests := <[cacheKey := handle]> (pendingRequests s);
          promises := promises s ++
            [{| key := cacheKey; retries_of := retries;
                settled := None; finalized := false |}] |})
  end.

(** [fetchAPI(endpoint, skipCache, retries)] up to its first suspension,
    called when [Date.now()] is [now]. *)
Definition fetchAPI (now : Z) (endpoint : string) (skipCache : bool)
    (retries : nat) (s : State) : Reply * State :=
  let cacheKey := endpoint in
  match (if negb skipCache then cache s !! cacheKey else None) with
  | Some cached =>
      if now - timestamp cached <? cacheTimeout
      then (FromCache (data cached), s)
      else joinOrStart cacheKey retries
             {| cache := delete cacheKey (cache s);
                pendingRequests := pendingRequests s;
                promises := promises s |}
  | None => joinOrStart cacheKey retries s
  end.

(** The request promise [handle] settles when [Date.now()] is [now], its
    attempts having been answered by [net]: on success the payload has
    just been cached. Nothing happens for a promise that has settled. *)
Definition settle (handle : nat) (now : Z) (net : nat -> Attempt)
    (s : State) : State :=
  match promises s !! handle with
  | Some p =>
      match settled p with
      | Some _ => s
      | None =>
          let outcome := snd (request net (retries_of p)) in
          {| cache :=
               match outcome with
               | Resolved d => <[key p := {| data := d; timestamp := now |}]> (cache s)
               | Rejected _ => cache s
               end;
             pendingRequests := pendingRequests s;
             promises := <[handle := {| key := key p; retries_of := retries_of p;
                                        settled := Some outcome;
                                        finalized := finalized p |}]> (promises s) |}
      end
  | None => s
  end.

(** The [finally] block of the call that created [handle], which runs
    once the promise has settled. *)
Definition finalize (handle : nat) (s : State) : State :=
  match promises s !! handle with
  | Some p =>
      match settled p, finalized p with
      | Some outcome, false =>
          {| cache := cache s;
             pendingRequests := delete (key p) (pendingRequests s);
             promises := <[handle := {| key := key p; retries_of := retries_of p;
                                        settled := Some outcome;
                                        finalized := true |}]> (promises s) |}
      | _, _ => s
      end
  | None => s
  end.

(** The events of the single-threaded event loop that touch this state. *)
Inductive Event : Type :=
| Call (now : Z) (endpoint : string) (skipCache : bool) (retries : nat)
| Settle (handle : nat) (now : Z) (net : nat -> Attempt)
| Finalize (handle : nat).

Definition step (e : Event) (s : State) : State :=
  match e with
  | Call now endpoint skipCache retries =>
      snd (fetchAPI now endpoint skipCache retries s)
  | Settle handle now net => settle handle now net s
  | Finalize handle => finalize handle s
  end.

Definition run (events : list Event) (s : State) : State :=
  foldl (fun s e => step e s) s events.

Inductive reachable : State -> Prop :=
| reachable_initial : reachable initial
| reachable_step e s : reachable s -> reachable (step e s).

(** Calls of [fetchAPI] for one endpoint made one after the other with no
    other event in between; each call has its own clock reading, bypass
    flag and retry count. *)
Fixpoint callAll (endpoint : string) (calls : list (Z * bool * nat))
    (s : State) : list Reply * State :=
  match calls with
  | [] => ([], s)
  | (now, skipCache, retries) :: rest =>
      let '(reply, s1) := fetchAPI now endpoint skipCache retries s in
      let '(replies, s2) := callAll endpoint rest s1 in
      (reply :: replies, s2)
  end.

(** A call made at [now] with this bypass flag is not served from the
    cache of [s]. *)
Definition notServedFromCache (s : State) (endpoint : string)
    (call : Z * bool * nat) : Prop :=
  let '(now, skipCache, _) := call in
  skipCache = true \/
  match cache s !! endpoint with
  | Some cached => cacheTimeout <= now - timestamp cached
  | None => True
  end.

(** A request promise is in flight from its creation until it settles. *)
Definition inFlight (s : State) (endpoint : string) (handle : nat) : Prop :=
  exists p, promises s !! handle = Some p /\ key p = endpoint /\ settled p = None.

Definition atMostOneInFlight (s : State) : Prop :=
  forall endpoint h1 h2,
    inFlight s endpoint h1 -> inFlight s endpoint h2 -> h1 = h2.

(** The outcome a caller holding [reply] ends up with in [s]. *)
Definition received (s : State) (reply : Reply) : option Outcome :=
  match reply with
  | FromCache d => Some (Resolved d)
  | Await handle => p ← promises s !! handle; settled p
  end.

(** ** Properties of the retry loop *)

Definition delay (attempt : nat) : Z := 500 * 2 ^ Z.of_nat attempt.

Lemma delay_increasing (a b : nat) : (a < b)%nat -> delay a < delay b.
Proof.
  intros Hab. unfold delay.
  apply Z.mul_lt_mono_pos_l; [lia|].
  apply Z.pow_lt_mono_r; lia.
Qed.

(** A response that is not [ok] throws the same error whatever its status:
    the 4xx test selects between two identical [throw] statements. *)
Lemma tryAttempt_not_ok (status : Z) (body : option json) :
  ok status = false -> tryAttempt (Response status body) = inl (HttpError status).
Proof.
  intros Hok. unfold tryAttempt, fetchWithTimeout. rewrite Hok. simpl.
  by destruct ((400 <=? status) && (status <? 500)).
Qed.

Lemma netCalls_app (l1 l2 : list Effect) :
  netCalls (l1 ++ l2) = netCalls l1 ++ netCalls l2.
Proof. apply omap_app. Qed.

Lemma sleeps_app (l1 l2 : list Effect) :
  sleeps (l1 ++ l2) = sleeps l1 ++ sleeps l2.
Proof. apply omap_app. Qed.

(** When every attempt left fails, the loop makes all of them, sleeps
    [delay attempt] after each one but the last, and rejects with the
    error of the last one. *)
Lemma requestLoop_all_fail (net : nat -> Attempt) (retries remaining : nat) :
  forall (attempt : nat) (lastError : option FetchError),
    (attempt + remaining = S retries)%nat ->
    (forall a, (attempt <= a <= retries)%nat -> exists e, tryAttempt (net a) = inl e) ->
    let '(effects, outcome) := requestLoop net retries remaining attempt lastError in
    netCalls effects = seq attempt remaining /\
    sleeps effects = delay <$> seq attempt (remaining - 1) /\
    (remaining <> 0%nat ->
     exists e, tryAttempt (net retries) = inl e /\ outcome = Rejected (Some e)).
Proof.
  induction remaining as [|k IH]; intros attempt lastError Hsum Hfail.
  - simpl. repeat split; try done.
  - simpl. destruct (Hfail attempt ltac:(lia)) as [e He]. rewrite He.
    destruct k as [|k'].
    + (* the last attempt *)
      simpl. assert (attempt = retries) as -> by lia.
      rewrite Nat.ltb_irrefl. simpl. repeat split; try done.
      intros _. by exists e.
    + specialize (IH (S attempt) (Some e) ltac:(lia)
                     (fun a Ha => Hfail a ltac:(lia))).
      destruct (requestLoop net retries (S k') (S attempt) (Some e))
        as [effects outcome].
      destruct IH as (Hcalls & Hsleeps & Hout).
      assert ((attempt <? retries)%nat = true) as -> by (apply Nat.ltb_lt; lia).
      repeat split.
      * change (netCalls (NetCall attempt :: [Sleep (500 * 2 ^ Z.of_nat attempt)] ++ effects))
          with (attempt :: netCalls effects). by rewrite Hcalls.
      * change (sleeps (NetCall attempt :: [Sleep (500 * 2 ^ Z.of_nat attempt)] ++ effects))
          with (delay attempt :: sleeps effects).
        rewrite Hsleeps. simpl. by rewrite Nat.sub_0_r.
      * intros _. apply Hout. lia.
Qed.

(** A request whose attempts all fail makes [retries + 1] attempts,
    sleeps 500, 1000, ... between them and rejects with the last error. *)
Lemma failed_request_retries (net : nat -> Attempt) (retries : nat) :
  (forall a, (a <= retries)%nat -> exists e, tryAttempt (net a) = inl e) ->
  netCalls (fst (request net retries)) = seq 0 (S retries) /\
  sleeps (fst (request net retries)) = delay <$> seq 0 retries /\
  exists e, tryAttempt (net retries) = inl e /\
            snd (request net retries) = Rejected (Some e).
Proof.
  intros Hfail. unfold request.
  pose proof (requestLoop_all_fail net retries (S retries) 0%nat None
                ltac:(lia) (fun a Ha => Hfail a ltac:(lia))) as H.
  destruct (requestLoop net retries (S retries) 0 None) as [effects outcome].
  destruct H as (Hc & Hs & Ho). simpl in *. rewrite Nat.sub_0_r in Hs.
  repeat split; try done. by apply Ho.
Qed.

(** The delays slept by the loop grow strictly. *)
Lemma delays_strictly_increasing (start n : nat) :
  StronglySorted Z.lt (delay <$> seq start n).
Proof.
  revert start. induction n as [|n IH]; intros start; simpl; constructor.
  - apply IH.
  - apply Forall_forall. intros d Hd.
    apply list_elem_of_fmap in Hd as (b & -> & Hb).
    apply list_elem_of_In, in_seq in Hb. apply delay_increasing. lia.
Qed.

(** Server errors, network failures and timeouts: with the default of two
    retries the request is attempted three times, 500 ms and 1000 ms
    apart. *)
Lemma retryable_failures_are_retried (net : nat -> Attempt) :
  (forall a, match net a with
             | Response status _ => 500 <= status < 600
             | NetworkFailure | Aborted => True
             end) ->
  netCalls (fst (request net MAX_RETRIES)) = [0; 1; 2]%nat /\
  sleeps (fst (request net MAX_RETRIES)) = [500; 1000] /\
  exists e, snd (request net MAX_RETRIES) = Rejected (Some e).
Proof.
  intros Hnet.
  destruct (failed_request_retries net MAX_RETRIES) as (Hc & Hs & e & _ & Ho).
  - intros a _. specialize (Hnet a). destruct (net a) as [status body| |].
    + exists (HttpError status). apply tryAttempt_not_ok.
      unfold ok. apply andb_false_iff. right. apply Z.leb_gt. lia.
    + by exists NetworkError.
    + by exists TimedOut.
  - repeat split; try done. by exists e.
Qed.

(** Client errors are treated no differently: a request that only ever
    meets 4xx responses is attempted [retries + 1] times as well. *)
Lemma client_errors_are_retried (net : nat -> Attempt) (retries : nat) :
  (forall a, exists status body,
      net a = Response status body /\ 400 <= status < 500) ->
  netCalls (fst (request net retries)) = seq 0 (S retries) /\
  sleeps (fst (request net retries)) = delay <$> seq 0 retries.
Proof.
  intros Hnet.
  destruct (failed_request_retries net retries) as (Hc & Hs & _); [|done].
  intros a _. destruct (Hnet a) as (status & body & -> & Hrange).
  exists (HttpError status). apply tryAttempt_not_ok.
  unfold ok. apply andb_false_iff. right. apply Z.leb_gt. lia.
Qed.

(** A first attempt that succeeds is the only one. *)
Lemma first_success_no_retry (net : nat -> Attempt) (retries : nat) (d : json) :
  tryAttempt (net 0%nat) = inr d ->
  request net retries = ([NetCall 0], Resolved d).
Proof. intros H. unfold request. simpl. by rewrite H. Qed.

(** C1: a client-error response (4xx) is said to end the retry loop of
    [fetchAPI] at once, with no further attempt. It does not: the [throw]
    for a 4xx status is caught by the [catch] of the same loop iteration,
    like the one for a 5xx status. Answered with HTTP 404 every time, a
    call with the default [MAX_RETRIES] makes three attempts, sleeping
    500 ms and 1000 ms between them, and then rejects with [HTTP 404]. *)
Theorem client_error_404_is_retried :
  request (fun _ => Response 404 None) MAX_RETRIES =
    ([NetCall 0; Sleep 500; NetCall 1; Sleep 1000; NetCall 2],
     Rejected (Some (HttpError 404))).
Proof. reflexivity. Qed.

(** ** Properties of the cache and of the pending-request map *)

(** The pending-request map and the promise table agree: the promises
    whose [finally] has not run are those registered as pending, each
    under its own key. *)
Record Consistent (s : State) : Prop := {
  pending_registered : forall k h,
    pendingRequests s !! k = Some h ->
    exists p, promises s !! h = Some p /\ key p = k /\ finalized p = false;
  unfinalized_pending : forall h p,
    promises s !! h = Some p -> finalized p = false ->
    pendingRequests s !! key p = Some h;
  finalized_settled : forall h p,
    promises s !! h = Some p -> finalized p = true -> is_Some (settled p)
}.

Lemma Consistent_initial : Consistent initial.
Proof. split; simpl; intros; simplify_map_eq; by rewrite ?lookup_nil in *. Qed.

Lemma Consistent_cache (s : State) (c : gmap string CacheEntry) :
  Consistent s ->
  Consistent {| cache := c; pendingRequests := pendingRequests s;
                promises := promises s |}.
Proof. intros [H1 H2 H3]. split; simpl; eauto. Qed.

Lemma Consistent_joinOrStart (k : string) (retries : nat) (s : State) :
  Consistent s -> Consistent (snd (joinOrStart k retries s)).
Proof.
  intros [H1 H2 H3]. unfold joinOrStart.
  destruct (pendingRequests s !! k) as [h|] eqn:Hk; simpl; [by split|].
  split; simpl.
  - intros k' h' Hl. destruct (decide (k = k')) as [<-|Hne].
    + rewrite lookup_insert_eq in Hl. injection Hl as <-.
      eexists. split; [by apply list_lookup_middle|done].
    + rewrite lookup_insert_ne in Hl by done.
      destruct (H1 _ _ Hl) as (p & Hp & Hkey & Hfin).
      exists p. split; [|done]. by apply lookup_app_l_Some.
  - intros h' p' Hl Hfin. apply lookup_snoc_Some in Hl as [[_ Hl]|[-> <-]].
    + specialize (H2 _ _ Hl Hfin).
      rewrite lookup_insert_ne; [done|]. intros Heq. rewrite <- Heq in H2. congruence.
    + simpl. by rewrite lookup_insert_eq.
  - intros h' p' Hl Hfin. apply lookup_snoc_Some in Hl as [[_ Hl]|[-> <-]]; [eauto|].
    done.
Qed.

Lemma Consistent_fetchAPI (now : Z) (endpoint : string) (skipCache : bool)
    (retries : nat) (s : State) :
  Consistent s -> Consistent (snd (fetchAPI now endpoint skipCache retries s)).
Proof.
  intros Hs. unfold fetchAPI.
  destruct (if negb skipCache then cache s !! endpoint else None) as [cached|].
  - destruct (now - timestamp cached <? cacheTimeout); [done|].
    by apply Consistent_joinOrStart, Consistent_cache.
  - by apply Consistent_joinOrStart.
Qed.

Lemma Consistent_settle (handle : nat) (now : Z) (net : nat -> Attempt) (s : State) :
  Consistent s -> Consistent (settle handle now net s).
Proof.
  intros [H1 H2 H3]. unfold settle.
  destruct (promises s !! handle) as [p|] eqn:Hp; [|by split].
  destruct (settled p) as [o|] eqn:Hset; [by split|].
  assert (handle < length (promises s))%nat as Hlt by (by eapply lookup_lt_Some).
  split; simpl.
  - intros k h Hl. destruct (H1 _ _ Hl) as (p' & Hp' & Hkey & Hfin).
    destruct (decide (h = handle)) as [->|Hne].
    + rewrite list_lookup_insert_eq by done. eexists. split; [done|].
      simpl. by simplify_eq.
    + rewrite list_lookup_insert_ne by done. eauto.
  - intros h p' Hl Hfin. destruct (decide (h = handle)) as [->|Hne].
    + rewrite list_lookup_insert_eq in Hl by done. simplify_eq. simpl in *. eauto.
    + rewrite list_lookup_insert_ne in Hl by done. eauto.
  - intros h p' Hl Hfin. destruct (decide (h = handle)) as [->|Hne].
    + rewrite list_lookup_insert_eq in Hl by done. by simplify_eq.
    + rewrite list_lookup_insert_ne in Hl by done. eauto.
Qed.

Lemma Consistent_finalize (handle : nat) (s : State) :
  Consistent s -> Consistent (finalize handle s).
Proof.
  intros [H1 H2 H3]. unfold finalize.
  destruct (promises s !! handle) as [p|] eqn:Hp; [|by split].
  destruct (settled p) as [o|] eqn:Hset; [|by split].
  destruct (finalized p) eqn:Hfinp; [by split|].
  assert (handle < length (promises s))%nat as Hlt by (by eapply lookup_lt_Some).
  pose proof (H2 _ _ Hp Hfinp) as Hpend.
  split; simpl.
  - intros k h Hl. apply lookup_delete_Some in Hl as [Hne Hl].
    destruct (H1 _ _ Hl) as (p' & Hp' & Hkey & Hfin).
    exists p'. split; [|done].
    rewrite list_lookup_insert_ne; [done|]. intros <-. simplify_eq.
  - intros h p' Hl Hfin. destruct (decide (h = handle)) as [->|Hne].
    + rewrite list_lookup_insert_eq in Hl by done. by simplify_eq.
    + rewrite list_lookup_insert_ne in Hl by done.
      specialize (H2 _ _ Hl Hfin).
      rewrite lookup_delete_ne; [done|]. intros Heq. rewrite Heq in Hpend. congruence.
  - intros h p' Hl Hfin. destruct (decide (h = handle)) as [->|Hne].
    + rewrite list_lookup_insert_eq in Hl by done. by simplify_eq.
    + rewrite list_lookup_insert_ne in Hl by done. eauto.
Qed.

Lemma Consistent_step (e : Event) (s : State) :
  Consistent s -> Consistent (step e s).
Proof.
  destruct e; simpl;
    auto using Consistent_fetchAPI, Consistent_settle, Consistent_finalize.
Qed.

Lemma reachable_Consistent (s : State) : reachable s -> Consistent s.
Proof.
  induction 1; auto using Consistent_initial, Consistent_step.
Qed.

(** At most one request per key is in flight in a consistent state, so at
    every instant of a run. *)
Lemma Consistent_atMostOneInFlight (s : State) :
  Consistent s -> atMostOneInFlight s.
Proof.
  intros [H1 H2 H3] endpoint h1 h2 (p1 & Hp1 & Hk1 & Hs1) (p2 & Hp2 & Hk2 & Hs2).
  assert (forall h p, promises s !! h = Some p -> settled p = None ->
                      finalized p = false) as Hunfin.
  { intros h p Hp Hs. destruct (finalized p) eqn:Hf; [|done].
    destruct (H3 _ _ Hp Hf) as [o Ho]. congruence. }
  pose proof (H2 _ _ Hp1 (Hunfin _ _ Hp1 Hs1)) as E1.
  pose proof (H2 _ _ Hp2 (Hunfin _ _ Hp2 Hs2)) as E2.
  rewrite Hk1 in E1. rewrite Hk2 in E2. congruence.
Qed.

Lemma reachable_atMostOneInFlight (s : State) :
  reachable s -> atMostOneInFlight s.
Proof. intros. by apply Consistent_atMostOneInFlight, reachable_Consistent. Qed.

Lemma reachable_run (events : list Event) (s : State) :
  reachable s -> reachable (run events s).
Proof.
  revert s. induction events as [|e events IH]; intros s Hs; simpl; [done|].
  apply IH. by constructor.
Qed.

Lemma reachable_callAll (endpoint : string) (calls : list (Z * bool * nat)) (s : State) :
  reachable s -> reachable (snd (callAll endpoint calls s)).
Proof.
  revert s. induction calls as [|[[now skip] r] rest IH]; intros s Hs; simpl; [done|].
  pose proof (reachable_step (Call now endpoint skip r) s Hs) as H1. simpl in H1.
  destruct (fetchAPI now endpoint skip r s) as [reply s1]. simpl in H1.
  specialize (IH s1 H1). by destruct (callAll endpoint rest s1).
Qed.

(** Once a promise has settled, no later event changes its outcome. *)
Lemma settled_stable (e : Event) (s : State) (h : nat) (p : Promise) (o : Outcome) :
  promises s !! h = Some p -> settled p = Some o ->
  exists p', promises (step e s) !! h = Some p' /\ settled p' = Some o.
Proof.
  intros Hp Ho.
  assert (h < length (promises s))%nat as Hlt by (by eapply lookup_lt_Some).
  destruct e as [now endpoint skip r|handle now net|handle]; simpl.
  - unfold fetchAPI, joinOrStart.
    destruct (if negb skip then cache s !! endpoint else None) as [c|];
      [destruct (now - timestamp c <? cacheTimeout)|]; simpl;
      try (destruct (pendingRequests s !! endpoint)); simpl; eauto;
      exists p; split; try done; by apply lookup_app_l_Some.
  - unfold settle. destruct (promises s !! handle) as [q|] eqn:Hq; [|eauto].
    destruct (settled q) eqn:Hsq; [eauto|]. simpl.
    destruct (decide (h = handle)) as [->|Hne]; [congruence|].
    rewrite list_lookup_insert_ne by done. eauto.
  - unfold finalize. destruct (promises s !! handle) as [q|] eqn:Hq; [|eauto].
    destruct (settled q) as [oq|] eqn:Hsq; [|eauto].
    destruct (finalized q); [eauto|]. simpl.
    destruct (decide (h = handle)) as [->|Hne].
    + rewrite list_lookup_insert_eq by done. eexists. split; [done|]. simpl. congruence.
    + rewrite list_lookup_insert_ne by done. eauto.
Qed.

(** A call that is not served from the cache goes on to the
    pending-request check, with the cache at most relieved of the expired
    entry of its key. *)
Lemma fetchAPI_not_served (now : Z) (endpoint : string) (skipCache : bool)
    (retries : nat) (s : State) :
  notServedFromCache s endpoint (now, skipCache, retries) ->
  exists c,
    (c = cache s \/ c = delete endpoint (cache s)) /\
    fetchAPI now endpoint skipCache retries s =
      joinOrStart endpoint retries
        {| cache := c; pendingRequests := pendingRequests s;
           promises := promises s |}.
Proof.
  intros Hns. unfold fetchAPI. destruct s as [c pend proms]. simpl in *.
  destruct Hns as [->|Hns]; simpl; [eauto|].
  destruct skipCache; simpl; [eauto|].
  destruct (c !! endpoint) as [cached|]; [|eauto].
  assert ((now - timestamp cached <? cacheTimeout) = false) as ->
    by (apply Z.ltb_ge; lia).
  eauto.
Qed.

Lemma notServedFromCache_cache (s s' : State) (endpoint : string)
    (call : Z * bool * nat) :
  cache s' = cache s \/ cache s' = delete endpoint (cache s) ->
  notServedFromCache s endpoint call -> notServedFromCache s' endpoint call.
Proof.
  destruct call as [[now skip] r]. unfold notServedFromCache.
  intros [->| ->] [?|?]; auto. right. by rewrite lookup_delete_eq.
Qed.

(** Calls that find a request pending for their key all get its promise
    and start nothing. *)
Lemma callAll_join (endpoint : string) (calls : list (Z * bool * nat)) :
  forall (s : State) (h : nat),
    pendingRequests s !! endpoint = Some h ->
    Forall (notServedFromCache s endpoint) calls ->
    let '(replies, s') := callAll endpoint calls s in
    length replies = length calls /\
    Forall (fun r => r = Await h) replies /\
    pendingRequests s' = pendingRequests s /\ promises s' = promises s.
Proof.
  induction calls as [|[[now skip] r] rest IH]; intros s h Hpend Hns; simpl; [done|].
  apply Forall_cons in Hns as [Hns Hrest].
  destruct (fetchAPI_not_served _ _ _ _ _ Hns) as (c & Hc & ->).
  unfold joinOrStart. simpl. rewrite Hpend.
  set (s1 := {| cache := c; pendingRequests := pendingRequests s;
                promises := promises s |}).
  specialize (IH s1 h Hpend).
  destruct (callAll endpoint rest s1) as [replies s2].
  destruct IH as (Hlen & Hall & Hp & Hq).
  - eapply Forall_impl; [exact Hrest|]. intros call.
    by apply notServedFromCache_cache.
  - repeat split; try done; [simpl; by f_equal|by constructor].
Qed.

(** C2: requests are coalesced per key. From any state of a run in which
    no request is pending for [endpoint], [K >= 1] calls of [fetchAPI] for
    it that the cache does not serve, made before the request settles,
    start exactly one request (one network attempt sequence): every caller
    holds the same promise, which is the only request in flight for the
    key. When that request has settled and the [finally] block has run,
    every caller has received the one outcome of the request (its payload
    or its final error) and the key has left the pending-request map. At
    most one request per key is in flight before and after. *)
Theorem concurrent_calls_coalesce (s : State) (endpoint : string)
    (first : Z * bool * nat) (others : list (Z * bool * nat))
    (now : Z) (net : nat -> Attempt) :
  reachable s ->
  pendingRequests s !! endpoint = None ->
  Forall (notServedFromCache s endpoint) (first :: others) ->
  let '(replies, s1) := callAll endpoint (first :: others) s in
  let handle := length (promises s) in
  let s2 := finalize handle (settle handle now net s1) in
  length replies = S (length others) /\
  length (promises s1) = S (length (promises s)) /\
  Forall (fun r => r = Await handle) replies /\
  inFlight s1 endpoint handle /\
  atMostOneInFlight s1 /\
  Forall (fun r => received s2 r = Some (snd (request net (snd first)))) replies /\
  pendingRequests s2 !! endpoint = None /\
  atMostOneInFlight s2.
Proof.
  intros Hreach Hpend Hns.
  pose proof (reachable_callAll endpoint (first :: others) s Hreach) as Hr1.
  destruct first as [[now0 skip0] r0]. simpl in *.
  apply Forall_cons in Hns as [Hns Hrest].
  destruct (fetchAPI_not_served _ _ _ _ _ Hns) as (c & Hc & Hfetch).
  rewrite Hfetch in *. unfold joinOrStart in *. simpl in *. rewrite Hpend in *.
  set (new := {| key := endpoint; retries_of := r0; settled := None;
                 finalized := false |}) in *.
  set (s0 := {| cache := c;
                pendingRequests := <[endpoint := length (promises s)]> (pendingRequests s);
                promises := promises s ++ [new] |}) in *.
  pose proof (callAll_join endpoint others s0 (length (promises s))) as Hjoin.
  destruct (callAll endpoint others s0) as [replies s1]. simpl in Hr1.
  destruct Hjoin as (Hlen & Hall & Hp1 & Hq1).
  { simpl. apply lookup_insert_eq. }
  { eapply Forall_impl; [exact Hrest|]. intros call.
    by apply notServedFromCache_cache. }
  assert (promises s1 !! length (promises s) = Some new) as Hnew.
  { rewrite Hq1. simpl. by apply list_lookup_middle. }
  assert (length (promises s) < length (promises s1))%nat as Hlt
    by (by eapply lookup_lt_Some).
  assert (Forall (fun r => r = Await (length (promises s)))
                 (Await (length (promises s)) :: replies)) as Hall'
    by (by constructor).
  (* the state once the request has settled and the finally block has run *)
  assert (exists s2, s2 = finalize (length (promises s))
                            (settle (length (promises s)) now net s1) /\
            pendingRequests s2 !! endpoint = None /\
            received s2 (Await (length (promises s))) =
              Some (snd (request net r0))) as (s2 & Es2 & Hgone & Hrecv).
  { eexists. split; [done|].
    unfold settle. rewrite Hnew. simpl.
    unfold finalize. simpl. rewrite list_lookup_insert_eq by done. simpl.
    rewrite lookup_delete_eq. split; [done|].
    rewrite list_lookup_insert_eq; [done|]. by rewrite length_insert. }
  rewrite <- Es2.
  repeat split.
  - simpl. by f_equal.
  - rewrite Hq1. simpl. rewrite length_app. simpl. lia.
  - done.
  - by exists new.
  - by apply reachable_atMostOneInFlight.
  - eapply Forall_impl; [exact Hall'|]. by intros r ->.
  - done.
  - apply reachable_atMostOneInFlight. rewrite Es2.
    apply (reachable_step (Finalize _)), (reachable_step (Settle _ _ _)), Hr1.
Qed.

(** Three calls for [/summary] on a fresh page share one request. *)
Lemma concurrent_calls_coalesce_witness :
  let '(replies, s1) :=
    callAll "/summary" [(0, false, MAX_RETRIES); (1, false, MAX_RETRIES);
                        (2, true, MAX_RETRIES)] initial in
  let s2 := finalize 0 (settle 0 5 (fun _ => Response 200 (Some JNull)) s1) in
  length replies = 3%nat /\
  length (promises s1) = 1%nat /\
  Forall (fun r => r = Await 0) replies /\
  inFlight s1 "/summary" 0 /\
  atMostOneInFlight s1 /\
  Forall (fun r => received s2 r = Some (Resolved JNull)) replies /\
  pendingRequests s2 !! "/summary" = None /\
  atMostOneInFlight s2.
Proof.
  apply (concurrent_calls_coalesce initial "/summary" (0, false, MAX_RETRIES)
           [(1, false, MAX_RETRIES); (2, true, MAX_RETRIES)] 5
           (fun _ => Response 200 (Some JNull))).
  - constructor.
  - reflexivity.
  - repeat (apply Forall_cons; split); [right; exact I|right; exact I|by left|].
    by apply Forall_nil.
Defined.

(** The claim of C6 for one call of [fetchAPI] without cache bypass that
    finds an entry cached for its endpoint. *)
Definition expiryClaim (s : State) (now : Z) (endpoint : string)
    (retries : nat) : Prop :=
  forall cached, cache s !! endpoint = Some cached ->
    let '(reply, s') := fetchAPI now endpoint false retries s in
    (now - timestamp cached < cacheTimeout ->
       reply = FromCache (data cached) /\ s' = s) /\
    (cacheTimeout <= now - timestamp cached ->
       cache s' !! endpoint = None /\
       length (promises s') = S (length (promises s))).

(** A run that leaves an expired entry next to a pending request: the
    page loads [/summary], and 40 s later refreshes it bypassing the
    cache. *)
Definition staleWhilePending : State :=
  run [Call 0 "/summary" false MAX_RETRIES;
       Settle 0 10 (fun _ => Response 200 (Some (JBool true)));
       Finalize 0;
       Call 40000 "/summary" true MAX_RETRIES] initial.

Lemma staleWhilePending_reachable : reachable staleWhilePending.
Proof. apply reachable_run. constructor. Qed.

(** With a request already pending for the key, the call that evicts the
    expired entry joins that request and starts none of its own. *)
Lemma expired_entry_with_pending_request :
  ~ expiryClaim staleWhilePending 40001 "/summary" MAX_RETRIES.
Proof.
  intros H.
  specialize (H {| data := JBool true; timestamp := 10 |} eq_refl).
  vm_compute in H. destruct H as [_ H]. destruct H as [_ H]; [discriminate|].
  discriminate H.
Qed.

(** C6 (amended): a call of [fetchAPI] without cache bypass that finds an
    entry younger than [cacheTimeout] (30000 ms) returns its data and
    touches nothing: no request is started. An entry aged [cacheTimeout]
    or more is evicted on that lookup; the call then starts exactly one
    request if none is pending for the key, and otherwise joins the
    pending one without starting another. *)
Theorem cache_expiry (s : State) (now : Z) (endpoint : string)
    (retries : nat) (cached : CacheEntry) :
  cache s !! endpoint = Some cached ->
  let '(reply, s') := fetchAPI now endpoint false retries s in
  (now - timestamp cached < cacheTimeout ->
     reply = FromCache (data cached) /\ s' = s) /\
  (cacheTimeout <= now - timestamp cached ->
     cache s' !! endpoint = None /\
     match pendingRequests s !! endpoint with
     | None =>
         reply = Await (length (promises s)) /\
         promises s' = promises s ++
           [{| key := endpoint; retries_of := retries; settled := None;
               finalized := false |}] /\
         pendingRequests s' !! endpoint = Some (length (promises s))
     | Some handle =>
         reply = Await handle /\ promises s' = promises s /\
         pendingRequests s' = pendingRequests s
     end).
Proof.
  intros Hc. unfold fetchAPI. simpl. rewrite Hc.
  destruct (now - timestamp cached <? cacheTimeout) eqn:Hage.
  - apply Z.ltb_lt in Hage. split; [done|lia].
  - apply Z.ltb_ge in Hage. unfold joinOrStart. simpl.
    destruct (pendingRequests s !! endpoint) as [h|] eqn:Hp; simpl.
    + split; [lia|]. intros _. by rewrite lookup_delete_eq.
    + split; [lia|]. intros _. by rewrite lookup_delete_eq, lookup_insert_eq.
Qed.

Lemma cache_expiry_witness :
  let s := staleWhilePending in
  let '(reply, s') := fetchAPI 40001 "/summary" false MAX_RETRIES s in
  (40001 - 10 < cacheTimeout -> reply = FromCache (JBool true) /\ s' = s) /\
  (cacheTimeout <= 40001 - 10 ->
     cache s' !! "/summary" = None /\
     match pendingRequests s !! "/summary" with
     | None =>
         reply = Await (length (promises s)) /\
         promises s' = promises s ++
           [{| key := "/summary"; retries_of := MAX_RETRIES; settled := None;
               finalized := false |}] /\
         pendingRequests s' !! "/summary" = Some (length (promises s))
     | Some handle =>
         reply = Await handle /\ promises s' = promises s /\
         pendingRequests s' = pendingRequests s
     end).
Proof.
  apply (cache_expiry staleWhilePending 40001 "/summary" MAX_RETRIES
           {| data := JBool true; timestamp := 10 |}).
  reflexivity.
Defined.

(** ** The retry loop in general *)

(** The loop stops at the first attempt that succeeds: after [k] failed
    attempts, each followed by its sleep, attempt [k] resolves the
    request and no later attempt is made. *)
Lemma requestLoop_first_success (net : nat -> Attempt) (retries : nat) (d : json) :
  forall (k attempt remaining : nat) (lastError : option FetchError),
    (attempt + remaining = S retries)%nat ->
    (k < remaining)%nat ->
    (forall a, (attempt <= a < attempt + k)%nat ->
               exists e, tryAttempt (net a) = inl e) ->
    tryAttempt (net (attempt + k)%nat) = inr d ->
    let '(effects, outcome) := requestLoop net retries remaining attempt lastError in
    netCalls effects = seq attempt (S k) /\
    sleeps effects = delay <$> seq attempt k /\
    outcome = Resolved d.
Proof.
  induction k as [|k IH]; intros attempt remaining lastError Hsum Hk Hfail Hok.
  - destruct remaining as [|r]; [lia|]. simpl.
    rewrite Nat.add_0_r in Hok. by rewrite Hok.
  - destruct remaining as [|r]; [lia|]. simpl.
    destruct (Hfail attempt ltac:(lia)) as [e He]. rewrite He.
    assert ((attempt <? retries)%nat = true) as -> by (apply Nat.ltb_lt; lia).
    specialize (IH (S attempt) r (Some e) ltac:(lia) ltac:(lia)
                   (fun a Ha => Hfail a ltac:(lia))).
    replace (attempt + S k)%nat with (S attempt + k)%nat in Hok by lia.
    specialize (IH Hok).
    destruct (requestLoop net retries r (S attempt) (Some e)) as [effects outcome].
    destruct IH as (Hc & Hs & Ho).
    change (netCalls (NetCall attempt :: [Sleep (500 * 2 ^ Z.of_nat attempt)] ++ effects))
      with (attempt :: netCalls effects).
    change (sleeps (NetCall attempt :: [Sleep (500 * 2 ^ Z.of_nat attempt)] ++ effects))
      with (delay attempt :: sleeps effects).
    by rewrite Hc, Hs.
Qed.

(** X1: a request resolves with the payload of the first attempt that
    succeeds. If attempts 0 .. k-1 fail and attempt [k <= retries]
    succeeds, exactly [k + 1] network calls are made, the sleeps between
    them are 500, 1000, ..., 500 * 2^(k-1) ms, and the attempts after [k]
    are never made. *)
Theorem request_first_success (net : nat -> Attempt) (retries k : nat) (d : json) :
  (k <= retries)%nat ->
  (forall a, (a < k)%nat -> exists e, tryAttempt (net a) = inl e) ->
  tryAttempt (net k) = inr d ->
  netCalls (fst (request net retries)) = seq 0 (S k) /\
  sleeps (fst (request net retries)) = delay <$> seq 0 k /\
  snd (request net retries) = Resolved d.
Proof.
  intros Hk Hfail Hok. unfold request.
  pose proof (requestLoop_first_success net retries d k 0%nat (S retries) None
                ltac:(lia) ltac:(lia) (fun a Ha => Hfail a ltac:(lia)) Hok) as H.
  by destruct (requestLoop net retries (S retries) 0 None).
Qed.

(** A 503 followed by a 200. *)
Definition flakyNet (attempt : nat) : Attempt :=
  match attempt with
  | O => Response 503 None
  | _ => Response 200 (Some (JBool true))
  end.

Lemma request_first_success_witness :
  netCalls (fst (request flakyNet MAX_RETRIES)) = seq 0 2 /\
  sleeps (fst (request flakyNet MAX_RETRIES)) = delay <$> seq 0 1 /\
  snd (request flakyNet MAX_RETRIES) = Resolved (JBool true).
Proof.
  apply (request_first_success flakyNet MAX_RETRIES 1 (JBool true)).
  - unfold MAX_RETRIES. lia.
  - intros a Ha. assert (a = 0%nat) as -> by lia.
    exists (HttpError 503). reflexivity.
  - reflexivity.
Defined.





(** ** The cache as a store *)

(** A resolved payload is in the cache, stamped with the time of the
    settlement, also after the [finally] block. *)
Lemma settle_resolved_cached (s : State) (h : nat) (p : Promise)
    (t : Z) (net : nat -> Attempt) (d : json) :
  promises s !! h = Some p ->
  settled p = None ->
  snd (request net (retries_of p)) = Resolved d ->
  cache (finalize h (settle h t net s)) !! key p =
    Some {| data := d; timestamp := t |}.
Proof.
  intros Hp Hs Hres.
  assert (h < length (promises s))%nat as Hlt by (by eapply lookup_lt_Some).
  unfold settle. rewrite Hp, Hs, Hres. unfold finalize. simpl.
  rewrite list_lookup_insert_eq by done. simpl.
  destruct (finalized p); simpl; apply lookup_insert_eq.
Qed.

Lemma fetchAPI_fresh (s : State) (now : Z) (endpoint : string) (retries : nat)
    (cached : CacheEntry) :
  cache s !! endpoint = Some cached ->
  now - timestamp cached < cacheTimeout ->
  fetchAPI now endpoint false retries s = (FromCache (data cached), s).
Proof.
  intros Hc Hage. unfold fetchAPI. simpl. rewrite Hc.
  assert ((now - timestamp cached <? cacheTimeout) = true) as ->
    by (by apply Z.ltb_lt).
  done.
Qed.

(** X3: what a request resolved with can be read back. Once the request
    promise [h] has resolved with [d] at time [t] and its [finally] block
    has run, every call for the same endpoint without bypass made less
    than [cacheTimeout] ms after [t] returns [d] from the cache and
    changes nothing: no request is started. *)
Theorem resolved_payload_is_served_from_cache (s : State) (h : nat) (p : Promise)
    (t now : Z) (net : nat -> Attempt) (d : json) (retries : nat) :
  promises s !! h = Some p ->
  settled p = None ->
  snd (request net (retries_of p)) = Resolved d ->
  now - t < cacheTimeout ->
  let s2 := finalize h (settle h t net s) in
  fetchAPI now (key p) false retries s2 = (FromCache d, s2).
Proof.
  intros Hp Hs Hres Hage. simpl.
  apply (fetchAPI_fresh _ now (key p) retries {| data := d; timestamp := t |});
    [by apply settle_resolved_cached|done].
Qed.

Lemma resolved_payload_is_served_from_cache_witness :
  let s := (fetchAPI 0 "/summary" false MAX_RETRIES initial).2 in
  let s2 := finalize 0 (settle 0 10 flakyNet s) in
  fetchAPI 20000 "/summary" false MAX_RETRIES s2 = (FromCache (JBool true), s2).
Proof.
  apply (resolved_payload_is_served_from_cache
           (fetchAPI 0 "/summary" false MAX_RETRIES initial).2 0
           {| key := "/summary"; retries_of := MAX_RETRIES; settled := None;
              finalized := false |} 10 20000 flakyNet (JBool true) MAX_RETRIES).
  - reflexivity.
  - reflexivity.
  - reflexivity.
  - reflexivity.
Defined.

(** X4: a failure is not cached. When, in a run, the request promise
    [h] rejects, the cache is left as it was, and once the [finally] block
    has run the key is no longer pending, so the next call that the cache
    does not serve starts a new request. *)
Theorem rejected_request_is_not_cached (s : State) (h : nat) (p : Promise)
    (t : Z) (net : nat -> Attempt) (e : option FetchError)
    (call : Z * bool * nat) :
  reachable s ->
  promises s !! h = Some p ->
  settled p = None ->
  snd (request net (retries_of p)) = Rejected e ->
  notServedFromCache (finalize h (settle h t net s)) (key p) call ->
  let s2 := finalize h (settle h t net s) in
  cache s2 = cache s /\
  pendingRequests s2 !! key p = None /\
  (fetchAPI call.1.1 (key p) call.1.2 call.2 s2).1 = Await (length (promises s)) /\
  length (promises (fetchAPI call.1.1 (key p) call.1.2 call.2 s2).2) =
    S (length (promises s)).
Proof.
  intros Hreach Hp Hs Hrej Hns s2.
  assert (h < length (promises s))%nat as Hlt by (by eapply lookup_lt_Some).
  assert (finalized p = false) as Hfin.
  { destruct (finalized p) eqn:Hf; [|done].
    destruct (finalized_settled s (reachable_Consistent s Hreach) h p Hp Hf) as [o Ho].
    congruence. }
  assert (cache s2 = cache s /\ pendingRequests s2 !! key p = None /\
          length (promises s2) = length (promises s)) as (Hc & Hpend & Hlen).
  { unfold s2, settle. rewrite Hp, Hs, Hrej. unfold finalize. simpl.
    rewrite list_lookup_insert_eq by done. simpl. rewrite Hfin. simpl.
    rewrite lookup_delete_eq, !length_insert. done. }
  destruct call as [[now skip] r]. simpl.
  destruct (fetchAPI_not_served now (key p) skip r s2 Hns) as (c & _ & ->).
  unfold joinOrStart. simpl. rewrite Hpend. simpl.
  rewrite length_app, Hlen. simpl. split_and!; try done. lia.
Qed.

(** A request that meets 503 three times, and the call that follows. *)
Lemma rejected_request_is_not_cached_witness :
  let s := (fetchAPI 0 "/summary" false MAX_RETRIES initial).2 in
  let s2 := finalize 0 (settle 0 1600 (fun _ => Response 503 None) s) in
  cache s2 = cache s /\
  pendingRequests s2 !! "/summary" = None /\
  (fetchAPI 2000 "/summary" false MAX_RETRIES s2).1 = Await 1 /\
  length (promises (fetchAPI 2000 "/summary" false MAX_RETRIES s2).2) = 2%nat.
Proof.
  apply (rejected_request_is_not_cached
           (fetchAPI 0 "/summary" false MAX_RETRIES initial).2 0
           {| key := "/summary"; retries_of := MAX_RETRIES; settled := None;
              finalized := false |} 1600 (fun _ => Response 503 None)
           (Some (HttpError 503)) (2000, false, MAX_RETRIES)).
  - apply (reachable_step (Call 0 "/summary" false MAX_RETRIES)). constructor.
  - reflexivity.
  - reflexivity.
  - reflexivity.
  - right. exact I.
Defined.

(** ** Keys do not interfere *)

(** The key an event is about. *)
Definition eventKey (s : State) (e : Event) : option string :=
  match e with
  | Call _ endpoint _ _ => Some endpoint
  | Settle handle _ _ | Finalize handle => key <$> promises s !! handle
  end.

(** X5: an event touches the cache entry and the pending entry of its own
    key only: a call, a settlement or a [finally] for one endpoint leaves
    what is cached and what is pending for every other endpoint as it
    was. *)
Theorem step_frame (e : Event) (s : State) (k : string) :
  eventKey s e <> Some k ->
  cache (step e s) !! k = cache s !! k /\
  pendingRequests (step e s) !! k = pendingRequests s !! k.
Proof.
  intros Hk. destruct e as [now endpoint skip r|h now net|h]; simpl in *.
  - assert (endpoint <> k) as Hne by congruence.
    unfold fetchAPI, joinOrStart.
    destruct (if negb skip then cache s !! endpoint else None) as [c|];
      [destruct (now - timestamp c <? cacheTimeout)|]; simpl; try done;
      destruct (pendingRequests s !! endpoint); simpl;
      rewrite ?lookup_delete_ne, ?lookup_insert_ne by done; done.
  - unfold settle. destruct (promises s !! h) as [p|] eqn:Hp; [|done].
    simpl in Hk. assert (key p <> k) as Hne by congruence.
    destruct (settled p); [done|]. simpl.
    destruct (request net (retries_of p)).2; simpl;
      rewrite ?lookup_insert_ne by done; done.
  - unfold finalize. destruct (promises s !! h) as [p|] eqn:Hp; [|done].
    simpl in Hk. assert (key p <> k) as Hne by congruence.
    destruct (settled p); [|done]. destruct (finalized p); [done|]. simpl.
    by rewrite lookup_delete_ne.
Qed.

Lemma step_frame_witness :
  let s := (fetchAPI 0 "/summary" false MAX_RETRIES initial).2 in
  cache (step (Call 5 "/sales" false MAX_RETRIES) s) !! "/summary" =
    cache s !! "/summary" /\
  pendingRequests (step (Call 5 "/sales" false MAX_RETRIES) s) !! "/summary" =
    pendingRequests s !! "/summary".
Proof.
  apply (step_frame (Call 5 "/sales" false MAX_RETRIES)
           (fetchAPI 0 "/summary" false MAX_RETRIES initial).2 "/summary").
  simpl. discriminate.
Defined.

(** X6: a caller is never handed the promise of another endpoint. In a
    run, the promise a call of [fetchAPI] awaits was made for the
    endpoint of the call, and the [finally] block of its maker has not
    run yet, so it is still registered as pending. *)
Theorem reply_promise_matches_endpoint (s s' : State) (now : Z)
    (endpoint : string) (skipCache : bool) (retries h : nat) :
  reachable s ->
  fetchAPI now endpoint skipCache retries s = (Await h, s') ->
  pendingRequests s' !! endpoint = Some h /\
  exists p, promises s' !! h = Some p /\ key p = endpoint /\ finalized p = false.
Proof.
  intros Hreach Hcall.
  pose proof (Consistent_fetchAPI now endpoint skipCache retries s
                (reachable_Consistent s Hreach)) as Hcons.
  rewrite Hcall in Hcons. simpl in Hcons.
  assert (pendingRequests s' !! endpoint = Some h) as Hpend.
  { revert Hcall. unfold fetchAPI, joinOrStart.
    destruct (if negb skipCache then cache s !! endpoint else None) as [c|];
      [destruct (now - timestamp c <? cacheTimeout); [done|]|]; simpl;
      (destruct (pendingRequests s !! endpoint) as [h0|] eqn:Hp; simpl;
       intros [= <- <-]; simpl; [done|apply lookup_insert_eq]). }
  split; [done|]. by apply (pending_registered s' Hcons).
Qed.

Lemma reply_promise_matches_endpoint_witness :
  pendingRequests (fetchAPI 0 "/summary" false MAX_RETRIES initial).2 !! "/summary"
    = Some 0%nat /\
  exists p, promises (fetchAPI 0 "/summary" false MAX_RETRIES initial).2 !! 0%nat
              = Some p /\ key p = "/summary" /\ finalized p = false.
Proof.
  apply (reply_promise_matches_endpoint initial
           (fetchAPI 0 "/summary" false MAX_RETRIES initial).2
           0 "/summary" false MAX_RETRIES 0).
  - constructor.
  - reflexivity.
Defined.

End Fetch.

(* ====================================================================== *)
(** * JavaScript objects used as dictionaries *)
(* ====================================================================== *)
Module JS.

(** What can be thrown in the code below: a [TypeError] of the language,
    or whatever a call into the chart library throws. *)
Inductive Exn : Type :=
| TypeError
| ChartError.

(** The properties every object literal inherits from [Object.prototype].
    All of them hold functions, or an object for [__proto__], so reading
    one gives a truthy value. *)
Definition objectPrototypeKeys : list string :=
  ["constructor"; "hasOwnProperty"; "isPrototypeOf"; "propertyIsEnumerable";
   "toLocaleString"; "toString"; "valueOf"; "__proto__";
   "__defineGetter__"; "__defineSetter__"; "__lookupGetter__";
   "__lookupSetter__"].

Definition inherited (k : string) : bool :=
  existsb (String.eqb k) objectPrototypeKeys.

(** The value of [obj[k]] for an object literal [obj] whose own properties
    are listed in insertion order. *)
Inductive Property (A : Type) : Type :=
| Own (value : A)
| Inherited
| Undefined.
Arguments Own {A} value.
Arguments Inherited {A}.
Arguments Undefined {A}.

Fixpoint own {A : Type} (obj : list (string * A)) (k : string) : option A :=
  match obj with
  | [] => None
  | (k', v) :: rest => if String.eqb k' k then Some v else own rest k
  end.

Definition get {A : Type} (obj : list (string * A)) (k : string) : Property A :=
  match own obj k with
  | Some v => Own v
  | None => if inherited k then Inherited else Undefined
  end.

(** [obj[k] = f(obj[k])] for an own property [k]. *)
Definition update {A : Type} (f : A -> A) (k : string) (obj : list (string * A))
    : list (string * A) :=
  (fun kv => if String.eqb kv.1 k then (kv.1, f kv.2) else kv) <$> obj.

End JS.

(* ====================================================================== *)
(** * The candle synthesizer inside [updateCandlestickChart] *)
(* ====================================================================== *)
Module Candles.

(** An element of [data.data_points]. *)
Record Point : Type := { x : Z; y : Q; variant : string; date : string }.

Record Candle : Type := { time : Z; open : Q; high : Q; low : Q; close : Q }.

(** [const variantGroups = { jumbo: [], breakers_delight: [], hobby: [] }] *)
Definition variantGroups : list (string * list Point) :=
  [("jumbo", []); ("breakers_delight", []); ("hobby", [])].

(** [const variantOffsets = { jumbo: 0, breakers_delight: 300, hobby: 600 }],
    read only at the keys of [variantGroups]. *)
Definition variantOffsets : list (string * Z) :=
  [("jumbo", 0); ("breakers_delight", 300); ("hobby", 600)].

Definition offsetOf (variantKey : string) : Z :=
  default 0 (JS.own variantOffsets variantKey).

(** The body of [data.data_points.forEach]: [if (variantGroups[v])
    variantGroups[v].push(point)]. An inherited property is truthy and
    has no [push]. *)
Definition pushPoint (groups : list (string * list Point)) (point : Point)
    : JS.Exn + list (string * list Point) :=
  let v := variant point in
  match JS.get groups v with
  | JS.Own _ => inr (JS.update (fun points => points ++ [point]) v groups)
  | JS.Inherited => inl JS.TypeError
  | JS.Undefined => inr groups
  end.

Fixpoint groupInto (groups : list (string * list Point)) (points : list Point)
    : JS.Exn + list (string * list Point) :=
  match points with
  | [] => inr groups
  | point :: rest =>
      match pushPoint groups point with
      | inr groups' => groupInto groups' rest
      | inl e => inl e
      end
  end.

Definition groupByVariant (points : list Point)
    : JS.Exn + list (string * list Point) :=
  groupInto variantGroups points.

(** [[...points].sort((a, b) => a.x - b.x)]: the sort is stable, so its
    result is the one of a stable insertion. *)
Fixpoint insertByX (p : Point) (sorted : list Point) : list Point :=
  match sorted with
  | [] => [p]
  | q :: rest =>
      if x p <=? x q then p :: q :: rest else q :: insertByX p rest
  end.

Definition sortByX (points : list Point) : list Point :=
  foldr insertByX [] points.

Definition overlayVariance : Q := 3 # 1000.   (* price * 0.003 *)
Definition singleVariance : Q := 5 # 1000.    (* price * 0.005 *)

(** The callback of [sorted.map((point, index) => ...)]. *)
Definition candle (varianceFraction : Q) (offsetSeconds : Z)
    (index : nat) (point : Point) : Candle :=
  let price := y point in
  let actualTime := x point / 1000 + Z.of_nat index * 3600 + offsetSeconds in
  let variance := (price * varianceFraction)%Q in
  {| time := actualTime;
     open := (price - variance)%Q;
     high := (price + variance)%Q;
     low := (price - variance)%Q;
     close := (price + variance)%Q |}.

Definition candleData (varianceFraction : Q) (offsetSeconds : Z)
    (sorted : list Point) : list Candle :=
  imap (candle varianceFraction offsetSeconds) sorted.

(** The candles of one variant in the view of all variants. *)
Definition overlayCandles (variantKey : string) (points : list Point)
    : list Candle :=
  candleData overlayVariance (offsetOf variantKey) (sortByX points).

(** The series of the view of all variants, in the order of
    [Object.keys(variantGroups)]; a group without points is skipped. *)
Definition overlaySeries (groups : list (string * list Point))
    : list (string * list Candle) :=
  omap (fun group =>
          match group.2 with
          | [] => None
          | _ => Some (group.1, overlayCandles group.1 group.2)
          end) groups.

(** The candles of the view of a single variant: all points, whatever
    their label, and no offset. *)
Definition singleCandles (points : list Point) : list Candle :=
  candleData singleVariance 0 (sortByX points).

(** ** Objects *)

Lemma own_None_update {A : Type} (f : A -> A) (k : string) (obj : list (string * A)) :
  JS.own obj k = None -> JS.update f k obj = obj.
Proof.
  induction obj as [|[k' v] rest IH]; simpl; [done|]. unfold JS.update in *. simpl.
  destruct (String.eqb k' k); [done|]. intros H. by rewrite IH.
Qed.

Lemma get_Undefined_own {A : Type} (obj : list (string * A)) (k : string) :
  JS.get obj k = JS.Undefined -> JS.own obj k = None.
Proof. unfold JS.get. destruct (JS.own obj k); [done|]. by destruct (JS.inherited k). Qed.

(** ** Grouping *)

Lemma pushPoint_inr (groups groups' : list (string * list Point)) (point : Point) :
  pushPoint groups point = inr groups' ->
  groups' = JS.update (fun points => points ++ [point]) (variant point) groups.
Proof.
  unfold pushPoint. destruct (JS.get groups (variant point)) eqn:Hget; intros H.
  - by injection H as <-.
  - done.
  - injection H as <-. symmetry. by apply own_None_update, get_Undefined_own.
Qed.

Lemma pushPoint_not_inherited (groups : list (string * list Point)) (point : Point) :
  JS.inherited (variant point) = false ->
  exists groups', pushPoint groups point = inr groups'.
Proof.
  intros Hni. unfold pushPoint, JS.get.
  destruct (JS.own groups (variant point)); [eauto|]. rewrite Hni. eauto.
Qed.

(** Each group receives, in input order, the points that carry its key. *)
Lemma groupInto_inr (points : list Point) :
  forall groups groups',
    groupInto groups points = inr groups' ->
    groups' =
      (fun kv => (kv.1, kv.2 ++ filter (fun p => variant p = kv.1) points)) <$> groups.
Proof.
  induction points as [|point rest IH]; intros groups groups' H; simpl in H.
  - injection H as <-. rewrite <- (list_fmap_id groups) at 1.
    apply list_fmap_ext. intros _ [k pts] _. simpl. by rewrite filter_nil, app_nil_r.
  - destruct (pushPoint groups point) as [e|g1] eqn:Hpush; [done|].
    apply pushPoint_inr in Hpush as ->. apply IH in H as ->.
    unfold JS.update. rewrite <- list_fmap_compose.
    apply list_fmap_ext. intros _ [k pts] _. simpl.
    destruct (String.eqb_spec k (variant point)) as [->|Hne]; simpl.
    + rewrite filter_cons_True by done. by rewrite <- app_assoc.
    + rewrite filter_cons_False; [done|]. congruence.
Qed.

Lemma groupByVariant_inr (points : list Point) (groups : list (string * list Point)) :
  groupByVariant points = inr groups ->
  groups = [("jumbo", filter (fun p => variant p = "jumbo") points);
            ("breakers_delight", filter (fun p => variant p = "breakers_delight") points);
            ("hobby", filter (fun p => variant p = "hobby") points)].
Proof. intros H. by apply groupInto_inr in H as ->. Qed.

Lemma groupInto_total (points : list Point) :
  Forall (fun p => JS.inherited (variant p) = false) points ->
  forall groups, exists groups', groupInto groups points = inr groups'.
Proof.
  induction 1 as [|point rest Hp _ IH]; intros groups; simpl; [eauto|].
  destruct (pushPoint_not_inherited groups point Hp) as [g1 ->]. apply IH.
Qed.

Lemma overlaySeries_elem (groups : list (string * list Point))
    (variantKey : string) (candles : list Candle) :
  (variantKey, candles) ∈ overlaySeries groups <->
  exists points, (variantKey, points) ∈ groups /\ points <> [] /\
                 candles = overlayCandles variantKey points.
Proof.
  unfold overlaySeries. rewrite list_elem_of_omap. split.
  - intros ([k pts] & Hin & Hsome). simpl in Hsome.
    destruct pts as [|p pts]; [done|]. injection Hsome as <- <-.
    exists (p :: pts). done.
  - intros (pts & Hin & Hne & ->). exists (variantKey, pts). split; [done|].
    simpl. by destruct pts.
Qed.

(** ** Sorting *)

Definition leX (p q : Point) : Prop := x p <= x q.

Lemma insertByX_perm (p : Point) (l : list Point) : insertByX p l ≡ₚ p :: l.
Proof.
  induction l as [|q rest IH]; simpl; [done|].
  destruct (x p <=? x q); [done|]. rewrite IH. apply Permutation_swap.
Qed.

Lemma sortByX_perm (l : list Point) : sortByX l ≡ₚ l.
Proof.
  induction l as [|p rest IH]; simpl; [done|].
  rewrite insertByX_perm. by rewrite IH.
Qed.

Lemma insertByX_sorted (p : Point) (l : list Point) :
  StronglySorted leX l -> StronglySorted leX (insertByX p l).
Proof.
  induction 1 as [|q rest Hsorted IH Hall]; simpl.
  - repeat constructor.
  - destruct (x p <=? x q) eqn:Hle.
    + apply Z.leb_le in Hle. constructor; [by constructor|].
      constructor; [done|].
      eapply Forall_impl; [exact Hall|]. unfold leX. intros r Hr. simpl in *. lia.
    + apply Z.leb_gt in Hle. constructor; [done|].
      rewrite insertByX_perm. constructor; [unfold leX; lia|done].
Qed.

Lemma sortByX_sorted (l : list Point) : StronglySorted leX (sortByX l).
Proof.
  induction l as [|p rest IH]; simpl; [constructor|]. by apply insertByX_sorted.
Qed.

Lemma sorted_lookup_le (l : list Point) :
  StronglySorted leX l ->
  forall i j p q, (i < j)%nat -> l !! i = Some p -> l !! j = Some q -> x p <= x q.
Proof.
  induction 1 as [|r rest Hsorted IH Hall]; intros i j p q Hij Hi Hj; [done|].
  destruct j as [|j]; [lia|]. simpl in Hj.
  destruct i as [|i]; simpl in Hi.
  - injection Hi as <-. rewrite Forall_forall in Hall.
    apply Hall. by eapply list_elem_of_lookup_2.
  - eapply (IH i j); [lia|done|done].
Qed.

(** ** Synthetic times *)

Lemma candleData_lookup (vf : Q) (off : Z) (sorted : list Point) (i : nat) :
  candleData vf off sorted !! i = candle vf off i <$> sorted !! i.
Proof. apply list_lookup_imap. Qed.

Lemma candleData_times (vf : Q) (off : Z) (sorted : list Point) :
  StronglySorted leX sorted ->
  forall i j ci cj, (i < j)%nat ->
    candleData vf off sorted !! i = Some ci ->
    candleData vf off sorted !! j = Some cj ->
    time ci + 3600 <= time cj.
Proof.
  intros Hsorted i j ci cj Hij Hi Hj. rewrite candleData_lookup in Hi, Hj.
  destruct (sorted !! i) as [p|] eqn:Hp; [|done].
  destruct (sorted !! j) as [q|] eqn:Hq; [|done].
  injection Hi as <-. injection Hj as <-. simpl.
  pose proof (sorted_lookup_le sorted Hsorted i j p q Hij Hp Hq) as Hle.
  pose proof (Z.div_le_mono (x p) (x q) 1000 ltac:(lia) Hle). lia.
Qed.

Lemma lookup_ordered_StronglySorted {A : Type} (R : A -> A -> Prop) (l : list A) :
  (forall i j a b, (i < j)%nat -> l !! i = Some a -> l !! j = Some b -> R a b) ->
  StronglySorted R l.
Proof.
  induction l as [|a rest IH]; intros H; constructor.
  - apply IH. intros i j b c Hij Hi Hj. by apply (H (S i) (S j)); [lia|..].
  - apply Forall_forall. intros b Hb. apply list_elem_of_lookup_1 in Hb as [j Hj].
    by apply (H 0%nat (S j)); [lia|..].
Qed.

Lemma candleData_strictly_increasing (vf : Q) (off : Z) (sorted : list Point) :
  StronglySorted leX sorted ->
  StronglySorted Z.lt (time <$> candleData vf off sorted).
Proof.
  intros Hsorted. apply lookup_ordered_StronglySorted.
  intros i j a b Hij Hi Hj. rewrite list_lookup_fmap in Hi, Hj.
  destruct (candleData vf off sorted !! i) as [ci|] eqn:Hci; [|done].
  destruct (candleData vf off sorted !! j) as [cj|] eqn:Hcj; [|done].
  injection Hi as <-. injection Hj as <-.
  pose proof (candleData_times vf off sorted Hsorted i j ci cj Hij Hci Hcj). lia.
Qed.

(** The single-variant view: same times without offset, strictly
    increasing as well. *)
Lemma single_times (points : list Point) :
  (forall i p, sortByX points !! i = Some p ->
     exists c, singleCandles points !! i = Some c /\
               time c = x p / 1000 + Z.of_nat i * 3600) /\
  StronglySorted Z.lt (time <$> singleCandles points).
Proof.
  split.
  - intros i p Hp. unfold singleCandles. rewrite candleData_lookup, Hp. simpl.
    eexists. split; [done|]. simpl. lia.
  - apply candleData_strictly_increasing, sortByX_sorted.
Qed.

(** A series of the view of all variants belongs to one of the three
    keys and is made of the points that carry it, which are not none. *)
Lemma overlaySeries_grouped (points : list Point)
    (groups : list (string * list Point))
    (variantKey : string) (candles : list Candle) :
  groupByVariant points = inr groups ->
  (variantKey, candles) ∈ overlaySeries groups ->
  variantKey ∈ ["jumbo"; "breakers_delight"; "hobby"] /\
  (variantKey, offsetOf variantKey) ∈ variantOffsets /\
  filter (fun p => variant p = variantKey) points <> [] /\
  candles = overlayCandles variantKey
              (filter (fun p => variant p = variantKey) points).
Proof.
  intros Hgroups Hin. apply groupByVariant_inr in Hgroups as ->.
  apply overlaySeries_elem in Hin as (pts & Hin & Hne & ->).
  rewrite !elem_of_cons in Hin.
  destruct Hin as [Hin|[Hin|[Hin|Hin]]]; [..|by apply elem_of_nil in Hin];
    injection Hin as -> ->; split_and!; try done;
    unfold variantOffsets; rewrite !elem_of_cons; auto.
Qed.

(** C4: in the view of all variants, the points are partitioned by
    variant and each part is sorted ascending by its original timestamp
    (a stable sort of the part); the candle at index [i] of a series gets
    the time [floor (x / 1000) + i * 3600 + offset], where the offset of
    the variant is 0, 300 or 600, and so the times of one series increase
    strictly. *)
Theorem synthetic_times (points : list Point)
    (groups : list (string * list Point))
    (variantKey : string) (candles : list Candle) :
  groupByVariant points = inr groups ->
  (variantKey, candles) ∈ overlaySeries groups ->
  let sorted := sortByX (filter (fun p => variant p = variantKey) points) in
  (variantKey, offsetOf variantKey) ∈ variantOffsets /\
  sorted ≡ₚ filter (fun p => variant p = variantKey) points /\
  StronglySorted leX sorted /\
  length candles = length sorted /\
  (forall i p, sorted !! i = Some p ->
     exists c, candles !! i = Some c /\
               time c = x p / 1000 + Z.of_nat i * 3600 + offsetOf variantKey) /\
  StronglySorted Z.lt (time <$> candles).
Proof.
  intros Hgroups Hin.
  destruct (overlaySeries_grouped points groups variantKey candles Hgroups Hin)
    as (_ & Hoff & _ & ->).
  simpl. split_and!.
  - done.
  - apply sortByX_perm.
  - apply sortByX_sorted.
  - unfold overlayCandles, candleData. apply length_imap.
  - intros i p Hp. unfold overlayCandles. rewrite candleData_lookup, Hp. simpl. eauto.
  - apply candleData_strictly_increasing, sortByX_sorted.
Qed.

(** Three sales, two of them of the same variant at different times. *)
Definition examplePoints : list Point :=
  [ {| x := 1000; y := 100; variant := "jumbo"; date := "2025-01-01" |};
    {| x := 1000; y := 200; variant := "hobby"; date := "2025-01-01" |};
    {| x := 2000; y := 110; variant := "jumbo"; date := "2025-01-01" |} ].

Definition exampleGroups : list (string * list Point) :=
  [("jumbo", filter (fun p => variant p = "jumbo") examplePoints);
   ("breakers_delight", filter (fun p => variant p = "breakers_delight") examplePoints);
   ("hobby", filter (fun p => variant p = "hobby") examplePoints)].

Lemma synthetic_times_witness :
  let candles :=
    overlayCandles "jumbo" (filter (fun p => variant p = "jumbo") examplePoints) in
  let sorted := sortByX (filter (fun p => variant p = "jumbo") examplePoints) in
  ("jumbo", offsetOf "jumbo") ∈ variantOffsets /\
  sorted ≡ₚ filter (fun p => variant p = "jumbo") examplePoints /\
  StronglySorted leX sorted /\
  length candles = length sorted /\
  (forall i p, sorted !! i = Some p ->
     exists c, candles !! i = Some c /\
               time c = x p / 1000 + Z.of_nat i * 3600 + offsetOf "jumbo") /\
  StronglySorted Z.lt (time <$> candles).
Proof.
  apply (synthetic_times examplePoints exampleGroups "jumbo").
  - reflexivity.
  - apply list_elem_of_here.
Defined.

(** The times of the example: the second jumbo sale is placed one hour and
    one second after the first. *)
Example example_times :
  (fun series : string * list Candle => (series.1, time <$> series.2))
    <$> overlaySeries exampleGroups =
    [("jumbo", [1; 3602]); ("hobby", [601])].
Proof. reflexivity. Qed.

(** The candle made from a positive price is ordered. *)
Lemma candle_ordered (varianceFraction : Q) (offsetSeconds : Z)
    (index : nat) (point : Point) :
  varianceFraction = overlayVariance \/ varianceFraction = singleVariance ->
  (0 < y point)%Q ->
  let c := candle varianceFraction offsetSeconds index point in
  (low c <= open c)%Q /\ (open c <= high c)%Q /\
  (low c <= close c)%Q /\ (close c <= high c)%Q.
Proof.
  intros Hvf Hy. simpl.
  repeat split; try apply Qle_refl;
    destruct Hvf as [-> | ->]; unfold overlayVariance, singleVariance; lra.
Qed.

(** C7: a point with a positive price gives a candle with
    [open = low = price - v] and [close = high = price + v], where
    [v = price * varianceFraction] (0.003 in the view of all variants,
    0.005 in the view of one); so [low <= open <= high] and
    [low <= close <= high] for that candle. *)
Theorem candles_ordered (varianceFraction : Q) (offsetSeconds : Z)
    (sorted : list Point) (i : nat) (p : Point) :
  varianceFraction = overlayVariance \/ varianceFraction = singleVariance ->
  sorted !! i = Some p ->
  (0 < y p)%Q ->
  exists c, candleData varianceFraction offsetSeconds sorted !! i = Some c /\
    let v := (y p * varianceFraction)%Q in
    open c = (y p - v)%Q /\ low c = (y p - v)%Q /\
    close c = (y p + v)%Q /\ high c = (y p + v)%Q /\
    (low c <= open c)%Q /\ (open c <= high c)%Q /\
    (low c <= close c)%Q /\ (close c <= high c)%Q.
Proof.
  intros Hvf Hp Hy. rewrite candleData_lookup, Hp. simpl.
  eexists. split; [done|].
  pose proof (candle_ordered varianceFraction offsetSeconds i p Hvf Hy) as H.
  simpl in *. tauto.
Qed.

Definition examplePoint : Point :=
  {| x := 1000; y := 200; variant := "hobby"; date := "2025-01-01" |}.

Lemma candles_ordered_witness :
  exists c, candleData overlayVariance 0 (sortByX examplePoints) !! 1%nat = Some c /\
    let v := (y examplePoint * overlayVariance)%Q in
    open c = (y examplePoint - v)%Q /\ low c = (y examplePoint - v)%Q /\
    close c = (y examplePoint + v)%Q /\ high c = (y examplePoint + v)%Q /\
    (low c <= open c)%Q /\ (open c <= high c)%Q /\
    (low c <= close c)%Q /\ (close c <= high c)%Q.
Proof.
  apply (candles_ordered overlayVariance 0 (sortByX examplePoints) 1 examplePoint).
  - by left.
  - reflexivity.
  - reflexivity.
Defined.

(** Hence in a payload whose prices are all positive every candle of
    every series is ordered. *)
Lemma all_candles_ordered (varianceFraction : Q) (offsetSeconds : Z)
    (sorted : list Point) :
  varianceFraction = overlayVariance \/ varianceFraction = singleVariance ->
  Forall (fun p => (0 < y p)%Q) sorted ->
  Forall (fun c => (low c <= open c)%Q /\ (open c <= high c)%Q /\
                   (low c <= close c)%Q /\ (close c <= high c)%Q)
         (candleData varianceFraction offsetSeconds sorted).
Proof.
  intros Hvf Hpos. apply Forall_lookup. intros i c Hc.
  rewrite candleData_lookup in Hc.
  destruct (sorted !! i) as [p|] eqn:Hp; [|done]. injection Hc as <-.
  rewrite Forall_lookup in Hpos.
  apply (candle_ordered varianceFraction offsetSeconds i p Hvf (Hpos i p Hp)).
Qed.

(** ** Which series appear *)

(** When the grouping goes through, every series belongs to one of the
    three known variants, is made of the points of the input that carry
    that label, and is not empty: a variant without points gets no series
    and a label that is no property of [variantGroups] is dropped. *)
Lemma series_only_for_present_variants (points : list Point)
    (groups : list (string * list Point))
    (variantKey : string) (candles : list Candle) :
  groupByVariant points = inr groups ->
  (variantKey, candles) ∈ overlaySeries groups ->
  variantKey ∈ ["jumbo"; "breakers_delight"; "hobby"] /\
  candles <> [] /\
  length candles = length (filter (fun p => variant p = variantKey) points) /\
  exists p, p ∈ points /\ variant p = variantKey.
Proof.
  intros Hgroups Hin.
  destruct (overlaySeries_grouped points groups variantKey candles Hgroups Hin)
    as (Hkey & _ & Hne & ->).
  assert (length (overlayCandles variantKey
                    (filter (fun p => variant p = variantKey) points)) =
          length (filter (fun p => variant p = variantKey) points)) as Hlen.
  { unfold overlayCandles, candleData. rewrite length_imap.
    by rewrite (sortByX_perm _). }
  split_and!; try done.
  - intros Hnil. rewrite Hnil in Hlen. simpl in Hlen.
    destruct (filter (fun p => variant p = variantKey) points); done.
  - destruct (filter (fun p => variant p = variantKey) points) as [|p rest] eqn:Hf;
      [done|].
    assert (p ∈ filter (fun p => variant p = variantKey) points) as Hp
      by (rewrite Hf; apply list_elem_of_here).
    apply list_elem_of_filter in Hp as [Hv Hp]. eauto.
Qed.

(** A variant without points gets no series. *)
Lemma no_series_without_points (points : list Point)
    (groups : list (string * list Point)) (variantKey : string) :
  groupByVariant points = inr groups ->
  Forall (fun p => variant p <> variantKey) points ->
  forall candles, (variantKey, candles) ∉ overlaySeries groups.
Proof.
  intros Hgroups Hnone candles Hin.
  destruct (series_only_for_present_variants _ _ _ _ Hgroups Hin)
    as (_ & _ & _ & p & Hp & Hv).
  rewrite Forall_forall in Hnone. by apply (Hnone p).
Qed.

(** The grouping goes through when no label is the name of a property
    inherited from [Object.prototype]. *)
Lemma groupByVariant_total (points : list Point) :
  Forall (fun p => JS.inherited (variant p) = false) points ->
  exists groups, groupByVariant points = inr groups.
Proof. intros H. by apply groupInto_total. Qed.

(** A point labelled with such a name stops the grouping with a
    [TypeError], wherever it stands in the input. *)
Lemma groupByVariant_inherited_label (before after : list Point) (point : Point) :
  Forall (fun p => JS.inherited (variant p) = false) before ->
  JS.inherited (variant point) = true ->
  groupByVariant (before ++ point :: after) = inl JS.TypeError.
Proof.
  intros Hbefore Hinh. unfold groupByVariant.
  assert (forall groups,
            (forall k, JS.inherited k = true -> JS.own groups k = None) ->
            groupInto groups (before ++ point :: after) = inl JS.TypeError) as H.
  { induction Hbefore as [|p rest Hp _ IH]; intros groups Hown; simpl.
    - unfold pushPoint, JS.get. by rewrite (Hown _ Hinh), Hinh.
    - destruct (pushPoint groups p) as [e|g1] eqn:Hpush.
      + destruct (pushPoint_not_inherited groups p Hp) as [g' Hg']. congruence.
      + apply IH. apply pushPoint_inr in Hpush as ->.
        intros k Hk. specialize (Hown k Hk). clear -Hown.
        induction groups as [|[k' v] groups IHg]; simpl in *; [done|].
        destruct (String.eqb k' (variant p)); simpl;
          destruct (String.eqb k' k); try done; by apply IHg. }
  apply H. intros k Hk.
  change (JS.own variantGroups k) with
    (if String.eqb "jumbo" k then Some (@nil Point)
     else if String.eqb "breakers_delight" k then Some (@nil Point)
     else if String.eqb "hobby" k then Some (@nil Point) else None).
  destruct (String.eqb_spec "jumbo" k) as [<-|_]; [by vm_compute in Hk|].
  destruct (String.eqb_spec "breakers_delight" k) as [<-|_]; [by vm_compute in Hk|].
  destruct (String.eqb_spec "hobby" k) as [<-|_]; [by vm_compute in Hk|done].
Qed.

(** ** More on the sort and on the times *)

Lemma insertByX_filter (p : Point) (l : list Point) (k : Z) :
  filter (fun q => x q = k) (insertByX p l) = filter (fun q => x q = k) (p :: l).
Proof.
  induction l as [|q rest IH]; simpl; [done|].
  destruct (x p <=? x q) eqn:Hle; [done|]. apply Z.leb_gt in Hle.
  rewrite (filter_cons _ q), IH, !(filter_cons _ p), (filter_cons _ q).
  destruct (decide (x q = k)); destruct (decide (x p = k)); try done. lia.
Qed.

(** X7: the sort by timestamp is stable. Sales with the same timestamp
    keep the order in which the payload lists them, so the candle index,
    and with it the synthetic time, of each of them is determined by the
    payload. *)
Theorem sortByX_stable (points : list Point) (k : Z) :
  filter (fun p => x p = k) (sortByX points) = filter (fun p => x p = k) points.
Proof.
  induction points as [|p rest IH]; simpl; [done|].
  rewrite insertByX_filter, !filter_cons. by rewrite IH.
Qed.

Lemma NoDup_fmap_inj_on {A B : Type} (f : A -> B) (l : list A) (a b : A) :
  NoDup (f <$> l) -> a ∈ l -> b ∈ l -> f a = f b -> a = b.
Proof.
  induction l as [|c rest IH]; intros Hnd Ha Hb Hf; [by apply elem_of_nil in Ha|].
  simpl in Hnd. apply NoDup_cons in Hnd as [Hc Hnd].
  apply elem_of_cons in Ha as [->|Ha]; apply elem_of_cons in Hb as [->|Hb].
  - done.
  - exfalso. apply Hc. rewrite Hf. by apply list_elem_of_fmap_2.
  - exfalso. apply Hc. rewrite <- Hf. by apply list_elem_of_fmap_2.
  - by apply IH.
Qed.

(** X8: when no two sales of a payload share a timestamp, the candles do
    not depend on the order in which the payload lists the sales: two
    payloads that are permutations of each other give the same sorted
    points, hence the same candles in the view of one variant and, for
    each variant, in the view of all. *)
Theorem candles_independent_of_payload_order (points1 points2 : list Point)
    (variantKey : string) :
  points1 ≡ₚ points2 ->
  NoDup (x <$> points1) ->
  sortByX points1 = sortByX points2 /\
  singleCandles points1 = singleCandles points2 /\
  overlayCandles variantKey (filter (fun p => variant p = variantKey) points1) =
    overlayCandles variantKey (filter (fun p => variant p = variantKey) points2).
Proof.
  intros Hperm Hnd.
  assert (forall l1 l2 : list Point,
            l1 ≡ₚ l2 -> NoDup (x <$> l1) -> sortByX l1 = sortByX l2) as Hsort.
  { intros l1 l2 Hp Hn.
    apply (StronglySorted_unique_strong leX);
      [|apply sortByX_sorted|apply sortByX_sorted|by rewrite !sortByX_perm].
    intros a b Ha Hb Hab Hba. rewrite sortByX_perm in Ha.
    rewrite sortByX_perm, <- Hp in Hb.
    apply (NoDup_fmap_inj_on x l1); try done. unfold leX in *. lia. }
  split_and!.
  - by apply Hsort.
  - unfold singleCandles. by rewrite (Hsort _ _ Hperm Hnd).
  - unfold overlayCandles. f_equal. apply Hsort.
    + by rewrite Hperm.
    + apply (NoDup_fmap_2_strong x); [|by apply NoDup_filter, (NoDup_fmap_1 x)].
      intros a b Ha Hb Hf. apply list_elem_of_filter in Ha as [_ Ha].
      apply list_elem_of_filter in Hb as [_ Hb].
      by apply (NoDup_fmap_inj_on x points1).
Qed.

(** Three sales at three different times. *)
Definition distinctPoints : list Point :=
  [ {| x := 3000; y := 120; variant := "jumbo"; date := "2025-01-01" |};
    {| x := 1000; y := 200; variant := "hobby"; date := "2025-01-01" |};
    {| x := 2000; y := 110; variant := "jumbo"; date := "2025-01-01" |} ].

Lemma candles_independent_of_payload_order_witness :
  sortByX distinctPoints = sortByX (reverse distinctPoints) /\
  singleCandles distinctPoints = singleCandles (reverse distinctPoints) /\
  overlayCandles "jumbo" (filter (fun p => variant p = "jumbo") distinctPoints) =
    overlayCandles "jumbo"
      (filter (fun p => variant p = "jumbo") (reverse distinctPoints)).
Proof.
  apply (candles_independent_of_payload_order
           distinctPoints (reverse distinctPoints) "jumbo").
  - symmetry. apply reverse_Permutation.
  - apply (bool_decide_unpack _). vm_compute. exact I.
Defined.

(** X9: the candles of one series are at least an hour apart per index
    step, however close in time the sales were: for [i < j] the time of
    candle [j] exceeds the time of candle [i] by at least
    [3600 * (j - i)] seconds. *)
Theorem candle_times_hour_apart (varianceFraction : Q) (offsetSeconds : Z)
    (points : list Point) (i j : nat) (ci cj : Candle) :
  (i < j)%nat ->
  candleData varianceFraction offsetSeconds (sortByX points) !! i = Some ci ->
  candleData varianceFraction offsetSeconds (sortByX points) !! j = Some cj ->
  time ci + 3600 * (Z.of_nat j - Z.of_nat i) <= time cj.
Proof.
  intros Hij Hi Hj. rewrite candleData_lookup in Hi, Hj.
  destruct (sortByX points !! i) as [p|] eqn:Hp; [|done].
  destruct (sortByX points !! j) as [q|] eqn:Hq; [|done].
  injection Hi as <-. injection Hj as <-. simpl.
  pose proof (sorted_lookup_le _ (sortByX_sorted points) i j p q Hij Hp Hq) as Hle.
  pose proof (Z.div_le_mono (x p) (x q) 1000 ltac:(lia) Hle). lia.
Qed.

Lemma candle_times_hour_apart_witness :
  time (candle singleVariance 0 0
          {| x := 1000; y := 100; variant := "jumbo"; date := "2025-01-01" |})
    + 3600 * (Z.of_nat 2 - Z.of_nat 0) <=
  time (candle singleVariance 0 2
          {| x := 2000; y := 110; variant := "jumbo"; date := "2025-01-01" |}).
Proof.
  apply (candle_times_hour_apart singleVariance 0 examplePoints 0 2);
    [lia|reflexivity|reflexivity].
Defined.

(** ** No sale is lost or counted twice *)

Definition knownVariant (p : Point) : Prop :=
  variant p ∈ ["jumbo"; "breakers_delight"; "hobby"].

Lemma overlaySeries_lengths (groups : list (string * list Point)) :
  sum_list (length <$> (overlaySeries groups).*2) =
    sum_list ((fun group => length group.2) <$> groups).
Proof.
  induction groups as [|[k pts] rest IH]; [done|].
  destruct pts as [|p pts].
  - exact IH.
  - change (overlaySeries ((k, p :: pts) :: rest))
      with ((k, overlayCandles k (p :: pts)) :: overlaySeries rest).
    rewrite !fmap_cons. cbn [sum_list sum_list_with snd].
    rewrite IH. f_equal. unfold overlayCandles, candleData.
    rewrite length_imap. by rewrite (sortByX_perm (p :: pts)).
Qed.

Lemma known_variant_count (points : list Point) :
  (length (filter (fun p => variant p = "jumbo") points) +
   (length (filter (fun p => variant p = "breakers_delight") points) +
    (length (filter (fun p => variant p = "hobby") points) + 0)))%nat =
  length (filter knownVariant points).
Proof.
  induction points as [|p rest IH]; [done|].
  rewrite !filter_cons. unfold knownVariant at 1.
  repeat case_decide; simpl; try (rewrite <- IH; lia); exfalso;
    first
      [ congruence
      | match goal with
        | H : _ ∈ _ |- _ => rewrite !elem_of_cons, elem_of_nil in H; tauto
        end
      | match goal with
        | H : ~ (_ ∈ _) |- _ => apply H; rewrite !elem_of_cons; auto
        end ].
Qed.

(** X10: no sale is lost or counted twice. In the view of all variants
    the series hold, in all, one candle for each sale labelled with one
    of the three known variants; in the view of one variant the series
    holds one candle for each sale of the payload, whatever its label. *)
Theorem one_candle_per_sale (points : list Point)
    (groups : list (string * list Point)) :
  groupByVariant points = inr groups ->
  sum_list (length <$> (overlaySeries groups).*2) =
    length (filter knownVariant points) /\
  length (singleCandles points) = length points.
Proof.
  intros Hg. split.
  - rewrite overlaySeries_lengths. apply groupByVariant_inr in Hg as ->.
    cbn [fmap list_fmap sum_list sum_list_with snd]. apply known_variant_count.
  - unfold singleCandles, candleData. rewrite length_imap.
    by rewrite (sortByX_perm points).
Qed.

Lemma one_candle_per_sale_witness :
  sum_list (length <$> (overlaySeries exampleGroups).*2) =
    length (filter knownVariant examplePoints) /\
  length (singleCandles examplePoints) = length examplePoints.
Proof. apply (one_candle_per_sale examplePoints exampleGroups). reflexivity. Defined.

(** ** When the grouping fails *)

Lemma Exists_first_split {A : Type} (P : A -> Prop)
    `{forall a, Decision (P a)} (l : list A) :
  Exists P l ->
  exists before a after,
    l = before ++ a :: after /\ Forall (fun b => ~ P b) before /\ P a.
Proof.
  induction l as [|a rest IH]; intros Hex; [by apply Exists_nil in Hex|].
  destruct (decide (P a)) as [Ha|Hna].
  - exists [], a, rest. by repeat split.
  - apply Exists_cons in Hex as [Ha|Hex]; [done|].
    destruct (IH Hex) as (before & b & after & -> & Hb & Hp).
    exists (a :: before), b, after. repeat split; [|done]. by constructor.
Qed.

(** X11: the grouping by variant fails exactly when some sale is
    labelled with the name of a property inherited from
    [Object.prototype]; the failure is a [TypeError], and otherwise the
    grouping returns the three groups. *)
Theorem groupByVariant_fails_iff (points : list Point) :
  (groupByVariant points = inl JS.TypeError <->
   Exists (fun p => JS.inherited (variant p) = true) points) /\
  (forall e, groupByVariant points = inl e -> e = JS.TypeError).
Proof.
  assert (groupByVariant points = inl JS.TypeError <->
          Exists (fun p => JS.inherited (variant p) = true) points) as Hiff.
  { split.
    - intros Hfail.
      destruct (decide (Exists (fun p => JS.inherited (variant p) = true) points))
        as [|Hno]; [done|].
      apply not_Exists_Forall in Hno; [|apply _].
      destruct (groupByVariant_total points) as [groups Hg]; [|congruence].
      eapply Forall_impl; [exact Hno|]. simpl. intros p Hp.
      by destruct (JS.inherited (variant p)).
    - intros Hex. destruct (Exists_first_split _ points Hex)
        as (before & p & after & -> & Hbefore & Hp).
      apply groupByVariant_inherited_label; [|done].
      eapply Forall_impl; [exact Hbefore|]. simpl. intros q Hq.
      by destruct (JS.inherited (variant q)). }
  split; [done|]. intros e He.
  destruct (decide (Exists (fun p => JS.inherited (variant p) = true) points))
    as [Hex|Hno].
  - apply Hiff in Hex. congruence.
  - apply not_Exists_Forall in Hno; [|apply _].
    destruct (groupByVariant_total points) as [groups Hg]; [|congruence].
    eapply Forall_impl; [exact Hno|]. simpl. intros p Hp.
    by destruct (JS.inherited (variant p)).
Qed.

End Candles.

(* ====================================================================== *)
(** * The chart and its fallback: [initChart], [updateCandlestickChart]
      and [renderFallbackChart] *)
(* ====================================================================== *)
Module Chart.

Import JS.

(** ** The world the chart code runs in *)

(** Calls into the chart library. *)
Inductive ChartCall : Type :=
| CreateChart                                (* LightweightCharts.createChart(...) *)
| Remove (chart : nat)                       (* state.chart.remove() *)
| RemoveSeries (series : nat)                (* state.chart.removeSeries(series) *)
| AddCandlestickSeries (title : option string) (* state.chart.addCandlestickSeries(...) *)
| SetData (series : nat) (candleData : list Candles.Candle) (* series.setData(...) *)
| FitContent.                                (* state.chart.timeScale().fitContent() *)

(** What the page and the browser provide for a session: whether the
    global [LightweightCharts] is defined, whether the elements
    [#mainChart] and [#chartLegend] exist, which calls into the library
    throw (by position in the sequence of all calls), and the collation
    of [String.prototype.localeCompare]. *)
Record Env : Type := {
  isChartLibraryAvailable : bool;
  containerPresent : bool;
  legendPresent : bool;
  throwsAt : nat -> bool;
  localeCompare : string -> string -> Z
}.

(** One row of the fallback table: an entry of [dailyData]. *)
Record Day : Type := { day : string; prices : list Q; count : nat }.

(** What [renderFallbackChart] writes into [#mainChart]. *)
Record Summary : Type := {
  avg : Q;
  high : Q;
  low : Q;
  totalSales : nat;
  sortedDays : list Day
}.

(** The content of [#mainChart]. *)
Inductive View : Type :=
| Untouched
| Skeleton                        (* showChartSkeleton() *)
| Canvas                          (* emptied for the chart *)
| FallbackTable (summary : Summary).

(** The chart fields of [state], the log of the calls made into the chart
    library (each with whether it threw) and the content of [#mainChart].
    A chart or series handle is the position of the call that made it. *)
Record World : Type := {
  chart : option nat;
  chartSeries : list nat;
  chartFallbackMode : bool;
  calls : list (ChartCall * bool);
  mainChart : View
}.

Definition initial : World :=
  {| chart := None; chartSeries := []; chartFallbackMode := false;
     calls := []; mainChart := Untouched |}.

Definition setChart (c : option nat) (w : World) : World :=
  {| chart := c; chartSeries := chartSeries w;
     chartFallbackMode := chartFallbackMode w; calls := calls w;
     mainChart := mainChart w |}.

Definition setChartSeries (l : list nat) (w : World) : World :=
  {| chart := chart w; chartSeries := l;
     chartFallbackMode := chartFallbackMode w; calls := calls w;
     mainChart := mainChart w |}.

Definition setChartFallbackMode (b : bool) (w : World) : World :=
  {| chart := chart w; chartSeries := chartSeries w;
     chartFallbackMode := b; calls := calls w; mainChart := mainChart w |}.

Definition setMainChart (v : View) (w : World) : World :=
  {| chart := chart w; chartSeries := chartSeries w;
     chartFallbackMode := chartFallbackMode w; calls := calls w;
     mainChart := v |}.

Definition logCall (c : ChartCall) (threw : bool) (w : World) : World :=
  {| chart := chart w; chartSeries := chartSeries w;
     chartFallbackMode := chartFallbackMode w;
     calls := calls w ++ [(c, threw)]; mainChart := mainChart w |}.

(** ** Computations that change the world and may throw *)

Definition M (A : Type) : Type := World -> (Exn + A) * World.

Definition ret {A : Type} (a : A) : M A := fun w => (inr a, w).

Definition bind {A B : Type} (m : M A) (f : A -> M B) : M B :=
  fun w =>
    match m w with
    | (inr a, w') => f a w'
    | (inl e, w') => (inl e, w')
    end.

Notation "'let*' x ':=' m 'in' k" := (bind m (fun x => k))
  (at level 10, x name, m at level 100, k at level 200).

Definition throw {A : Type} (e : Exn) : M A := fun w => (inl e, w).

(** [try { m } catch (e) { handler }] *)
Definition tryCatch {A : Type} (m : M A) (handler : M A) : M A :=
  fun w =>
    match m w with
    | (inr a, w') => (inr a, w')
    | (inl _, w') => handler w'
    end.

Definition get : M World := fun w => (inr w, w).

Definition modify (f : World -> World) : M unit := fun w => (inr tt, f w).

Definition lift {A : Type} (r : Exn + A) : M A := fun w => (r, w).

Fixpoint forEach {A : Type} (l : list A) (f : A -> M unit) : M unit :=
  match l with
  | [] => ret tt
  | a :: rest => let* _ := f a in forEach rest f
  end.

(** A call into the chart library: it is logged, and it throws or returns
    (the handle of what it made, where it makes something). *)
Definition libraryCall (env : Env) (c : ChartCall) : M nat :=
  fun w =>
    let n := length (calls w) in
    if throwsAt env n
    then (inl ChartError, logCall c true w)
    else (inr n, logCall c false w).

(** ** [renderFallbackChart] *)

(** The body of the first [forEach]:
    [if (!dailyData[date]) dailyData[date] = { date, prices: [], count: 0 };
     dailyData[date].prices.push(point.y); dailyData[date].count++]. An
    inherited property is truthy and has no [prices]. *)
Definition addToDay (dailyData : list (string * Day)) (point : Candles.Point)
    : Exn + list (string * Day) :=
  let date := Candles.date point in
  match JS.get dailyData date with
  | Undefined =>
      inr (dailyData ++
             [(date, {| day := date; prices := [Candles.y point]; count := 1 |})])
  | Own _ =>
      inr (JS.update
             (fun d => {| day := day d;
                          prices := prices d ++ [Candles.y point];
                          count := S (count d) |})
             date dailyData)
  | Inherited => inl TypeError
  end.

Fixpoint groupByDate (dailyData : list (string * Day))
    (points : list Candles.Point) : Exn + list (string * Day) :=
  match points with
  | [] => inr dailyData
  | point :: rest =>
      match addToDay dailyData point with
      | inr dailyData' => groupByDate dailyData' rest
      | inl e => inl e
      end
  end.

(** [.sort((a, b) => b.date.localeCompare(a.date))], a stable sort. *)
Fixpoint insertDay (env : Env) (d : Day) (sorted : list Day) : list Day :=
  match sorted with
  | [] => [d]
  | q :: rest =>
      if localeCompare env (day q) (day d) <=? 0
      then d :: q :: rest
      else q :: insertDay env d rest
  end.

Definition sortDays (env : Env) (days : list Day) : list Day :=
  foldr (insertDay env) [] days.

(** [allPrices.length > 0 ? reduce(...) / allPrices.length : 0] *)
Definition average (allPrices : list Q) : Q :=
  match allPrices with
  | [] => 0%Q
  | _ => (foldl Qplus 0%Q allPrices / inject_Z (Z.of_nat (length allPrices)))%Q
  end.

(** [allPrices.length > 0 ? Math.max(...allPrices) : 0] *)
Definition highest (allPrices : list Q) : Q :=
  match allPrices with
  | [] => 0%Q
  | p :: rest => foldl Qmax p rest
  end.

(** [allPrices.length > 0 ? Math.min(...allPrices) : 0] *)
Definition lowest (allPrices : list Q) : Q :=
  match allPrices with
  | [] => 0%Q
  | p :: rest => foldl Qmin p rest
  end.

Definition summarize (env : Env) (dailyData : list (string * Day))
    (points : list Candles.Point) : Summary :=
  let allPrices := Candles.y <$> points in
  {| avg := average allPrices;
     high := highest allPrices;
     low := lowest allPrices;
     totalSales := length points;
     sortedDays := take 10 (sortDays env (snd <$> dailyData)) |}.

Definition renderFallbackChart (env : Env) (data_points : list Candles.Point)
    (variant : string) : M unit :=
  if negb (containerPresent env) then ret tt
  else
    let* _ := modify (setChartFallbackMode true) in
    let* dailyData := lift (groupByDate [] data_points) in
    modify (setMainChart (FallbackTable (summarize env dailyData data_points))).

(** ** [initChart] *)

Definition initChart (env : Env) : M bool :=
  if negb (containerPresent env) then ret false
  else
    let* w := get in
    let* _ := match chart w with
              | None => modify (setMainChart Skeleton)
              | Some _ => ret tt
              end in
    if negb (isChartLibraryAvailable env)
    then let* _ := modify (setChartFallbackMode true) in ret false
    else
      tryCatch
        (let* _ := match chart w with
                   | Some c =>
                       let* _ := tryCatch
                                   (let* _ := libraryCall env (Remove c) in ret tt)
                                   (ret tt) in
                       let* _ := modify (setChart None) in
                       modify (setChartSeries [])
                   | None => ret tt
                   end in
         let* _ := modify (setMainChart Canvas) in
         let* c := libraryCall env CreateChart in
         let* _ := modify (setChart (Some c)) in
         let* _ := modify (setChartFallbackMode false) in
         ret true)
        (let* _ := modify (setChartFallbackMode true) in ret false).

(** ** [updateCandlestickChart] *)

Definition VARIANT_LABELS : list (string * string) :=
  [("jumbo", "Jumbo"); ("breakers_delight", "Breaker's Delight");
   ("hobby", "Hobby")].

(** [state.chartSeries.forEach(series => { try { state.chart.removeSeries(series) }
    catch (e) { } })] *)
Definition removeAllSeries (env : Env) : M unit :=
  let* w := get in
  forEach (chartSeries w)
    (fun series =>
       tryCatch (let* _ := libraryCall env (RemoveSeries series) in ret tt)
                (ret tt)).

Definition pushSeries (series : nat) (w : World) : World :=
  setChartSeries (chartSeries w ++ [series]) w.

(** The body of [Object.keys(variantGroups).forEach]: nothing for a
    group without points, else a new series with the candles of the
    group. *)
Definition attachSeries (env : Env) (group : string * list Candles.Point)
    : M unit :=
  let '(variantKey, points) := group in
  match points with
  | [] => ret tt
  | _ =>
      let candleData := Candles.overlayCandles variantKey points in
      let* series :=
        libraryCall env (AddCandlestickSeries (JS.own VARIANT_LABELS variantKey)) in
      let* _ := libraryCall env (SetData series candleData) in
      modify (pushSeries series)
  end.

(** The branch [variant === 'all']. [updateMultiVariantLegend] only
    writes the legend. *)
Definition renderAll (env : Env) (data_points : list Candles.Point) : M unit :=
  let* variantGroups := lift (Candles.groupByVariant data_points) in
  let* _ := forEach variantGroups (attachSeries env) in
  let* _ := libraryCall env FitContent in
  ret tt.

(** [updateChartLegend]: [if (!legend || dataPoints.length === 0)
    { legend.innerHTML = ... }] throws without a legend element. *)
Definition updateChartLegend (env : Env) : M unit :=
  if legendPresent env then ret tt else throw TypeError.

(** The branch of a single variant. *)
Definition renderSingle (env : Env) (data_points : list Candles.Point) : M unit :=
  let candleData := Candles.singleCandles data_points in
  let* candleSeries := libraryCall env (AddCandlestickSeries None) in
  let* _ := match candleData with
            | [] => ret tt
            | _ =>
                let* _ := libraryCall env (SetData candleSeries candleData) in
                let* _ := libraryCall env FitContent in
                ret tt
            end in
  let* _ := modify (pushSeries candleSeries) in
  updateChartLegend env.

(** The body of the outer [try]. *)
Definition renderChart (env : Env) (data_points : list Candles.Point)
    (variant : string) : M unit :=
  let* _ := removeAllSeries env in
  let* _ := modify (setChartSeries []) in
  if String.eqb variant "all"
  then renderAll env data_points
  else renderSingle env data_points.

Definition updateCandlestickChart (env : Env) (data_points : list Candles.Point)
    (variant : string) : M unit :=
  let* w := get in
  if chartFallbackMode w || negb (isChartLibraryAvailable env)
  then renderFallbackChart env data_points variant
  else
    let* success := match chart w with
                    | None => initChart env
                    | Some _ => ret true
                    end in
    if negb success
    then renderFallbackChart env data_points variant
    else tryCatch (renderChart env data_points variant)
                  (renderFallbackChart env data_points variant).

(** ** Sessions *)

(** [init()] calls [initChart()] once, on the initial state. *)
Definition init (env : Env) : World := (initChart env initial).2.

(** The data updates of a session, each with its payload and variant. *)
Definition session (env : Env) (updates : list (list Candles.Point * string))
    (w : World) : World :=
  foldl (fun w u => (updateCandlestickChart env u.1 u.2 w).2) w updates.

(** The state the gate at the top of [updateCandlestickChart] acts on. *)
Inductive RenderState : Type := Uninitialized | Live | Fallback.

Definition renderState (env : Env) (w : World) : RenderState :=
  if chartFallbackMode w || negb (isChartLibraryAvailable env) then Fallback
  else match chart w with
       | Some _ => Live
       | None => Uninitialized
       end.

(** ** What the computations do to the log of library calls *)

(** The calls whose exception reaches the outer [catch] of
    [updateCandlestickChart] or the [catch] of [initChart]; the exceptions
    of [remove] and [removeSeries] are swallowed where they are made. *)
Definition renderCall (c : ChartCall) : bool :=
  match c with
  | CreateChart | AddCandlestickSeries _ | SetData _ _ | FitContent => true
  | Remove _ | RemoveSeries _ => false
  end.

(** The calls logged between two worlds. *)
Definition newCalls (w w' : World) : list (ChartCall * bool) :=
  drop (length (calls w)) (calls w').

Definition renderThrew (w w' : World) : Prop :=
  exists c, (c, true) ∈ newCalls w w' /\ renderCall c = true.

Definition quiet (entries : list (ChartCall * bool)) : Prop :=
  Forall (fun e => e.2 = true -> renderCall e.1 = false) entries.

(** A computation is orderly when it only appends to the log, leaves
    [state.chart] and the fallback flag alone, and returns normally only
    if no render call threw. *)
Definition orderly {A : Type} (m : M A) : Prop :=
  forall w, exists new,
    calls (m w).2 = calls w ++ new /\
    chart (m w).2 = chart w /\
    chartFallbackMode (m w).2 = chartFallbackMode w /\
    (forall a, (m w).1 = inr a -> quiet new).

Lemma quiet_nil : quiet [].
Proof. by apply Forall_nil. Qed.

Lemma orderly_ret {A : Type} (a : A) : orderly (ret a).
Proof. intros w. exists []. simpl. rewrite app_nil_r. repeat split. constructor. Qed.

Lemma orderly_lift {A : Type} (r : Exn + A) : orderly (lift r).
Proof. intros w. exists []. simpl. rewrite app_nil_r. repeat split. constructor. Qed.

Lemma orderly_throw {A : Type} (e : Exn) : orderly (@throw A e).
Proof. intros w. exists []. simpl. rewrite app_nil_r. repeat split. constructor. Qed.

Lemma orderly_get : orderly get.
Proof. intros w. exists []. simpl. rewrite app_nil_r. repeat split. constructor. Qed.

Lemma orderly_setChartSeries (f : World -> list nat) :
  orderly (modify (fun w => setChartSeries (f w) w)).
Proof. intros w. exists []. simpl. rewrite app_nil_r. repeat split. constructor. Qed.

Lemma orderly_bind {A B : Type} (m : M A) (f : A -> M B) :
  orderly m -> (forall a, orderly (f a)) -> orderly (bind m f).
Proof.
  intros Hm Hf w. destruct (Hm w) as (n1 & Hc1 & Hch1 & Hfb1 & Hq1).
  unfold bind. destruct (m w) as [[e|a] w1]; simpl in *.
  - exists n1. repeat split; try done.
  - destruct (Hf a w1) as (n2 & Hc2 & Hch2 & Hfb2 & Hq2).
    exists (n1 ++ n2). rewrite Hc2, Hc1, Hch2, Hfb2, app_assoc.
    repeat split; try done. intros b Hb. apply Forall_app.
    split; [by apply (Hq1 a)|by apply (Hq2 b)].
Qed.

Lemma orderly_libraryCall (env : Env) (c : ChartCall) : orderly (libraryCall env c).
Proof.
  intros w. unfold libraryCall.
  destruct (throwsAt env (length (calls w))); eexists; simpl; repeat split; try done.
  intros a _. by repeat constructor.
Qed.

(** [try { state.chart.removeSeries(series) } catch (e) { }] *)
Lemma orderly_removeSeries (env : Env) (series : nat) :
  orderly (tryCatch (let* _ := libraryCall env (RemoveSeries series) in ret tt)
                    (ret tt)).
Proof.
  intros w. unfold tryCatch, bind, libraryCall, ret.
  destruct (throwsAt env (length (calls w))); eexists; simpl; repeat split; try done;
    intros a _; by repeat constructor.
Qed.

Lemma orderly_forEach {A : Type} (l : list A) (f : A -> M unit) :
  (forall a, orderly (f a)) -> orderly (forEach l f).
Proof.
  intros Hf. induction l as [|a rest IH]; simpl.
  - apply orderly_ret.
  - apply orderly_bind; [apply Hf|]. by intros _.
Qed.

Lemma orderly_renderChart (env : Env) (data_points : list Candles.Point)
    (variant : string) :
  orderly (renderChart env data_points variant).
Proof.
  unfold renderChart.
  apply orderly_bind.
  { unfold removeAllSeries. apply orderly_bind; [apply orderly_get|].
    intros w. apply orderly_forEach. intros series. apply orderly_removeSeries. }
  intros _. apply orderly_bind; [apply (orderly_setChartSeries (fun _ => []))|].
  intros _. destruct (String.eqb variant "all").
  - unfold renderAll. apply orderly_bind; [apply orderly_lift|].
    intros groups. apply orderly_bind.
    + apply orderly_forEach. intros [k points]. unfold attachSeries.
      destruct points as [|p points]; [apply orderly_ret|].
      apply orderly_bind; [apply orderly_libraryCall|]. intros series.
      apply orderly_bind; [apply orderly_libraryCall|]. intros _.
      apply (orderly_setChartSeries (fun w => chartSeries w ++ [series])).
    + intros _. apply orderly_bind; [apply orderly_libraryCall|].
      intros _. apply orderly_ret.
  - unfold renderSingle.
    apply orderly_bind; [apply orderly_libraryCall|]. intros series.
    apply orderly_bind.
    + destruct (Candles.singleCandles data_points); [apply orderly_ret|].
      apply orderly_bind; [apply orderly_libraryCall|]. intros _.
      apply orderly_bind; [apply orderly_libraryCall|]. intros _.
      apply orderly_ret.
    + intros _.
      apply orderly_bind;
        [apply (orderly_setChartSeries (fun w => chartSeries w ++ [series]))|].
      intros _. unfold updateChartLegend.
      destruct (legendPresent env); [apply orderly_ret|apply orderly_throw].
Qed.

(** ** [renderFallbackChart] *)

(** The dates of a payload are clean when none is the name of a property
    inherited from [Object.prototype]; dates of the form YYYY-MM-DD are. *)
Definition cleanDates (data_points : list Candles.Point) : Prop :=
  Forall (fun p => inherited (Candles.date p) = false) data_points.

Lemma groupByDate_total (data_points : list Candles.Point) :
  cleanDates data_points ->
  forall dailyData, exists dailyData',
    groupByDate dailyData data_points = inr dailyData'.
Proof.
  induction 1 as [|point rest Hp _ IH]; intros dailyData; simpl; [eauto|].
  unfold addToDay, JS.get.
  destruct (own dailyData (Candles.date point)); [apply IH|].
  rewrite Hp. apply IH.
Qed.

(** Without the element [#mainChart] the function returns at once. *)
Lemma renderFallbackChart_no_container (env : Env)
    (data_points : list Candles.Point) (variant : string) (w : World) :
  containerPresent env = false ->
  renderFallbackChart env data_points variant w = (inr tt, w).
Proof. intros H. unfold renderFallbackChart. by rewrite H. Qed.

(** With it, the fallback flag is set before anything else; no call into
    the chart library is made; and for clean dates the summary table is
    written and the function returns. *)
Lemma renderFallbackChart_container (env : Env)
    (data_points : list Candles.Point) (variant : string) (w : World) :
  containerPresent env = true ->
  let '(r, w') := renderFallbackChart env data_points variant w in
  chartFallbackMode w' = true /\ calls w' = calls w /\ chart w' = chart w /\
  (cleanDates data_points ->
   r = inr tt /\ exists summary, mainChart w' = FallbackTable summary).
Proof.
  intros Hc. unfold renderFallbackChart, bind, modify, lift. rewrite Hc. simpl.
  destruct (groupByDate [] data_points) as [e|dailyData] eqn:Hg; simpl.
  - refine (conj eq_refl (conj eq_refl (conj eq_refl _))). intros Hclean.
    destruct (groupByDate_total data_points Hclean []) as [d Hd]. congruence.
  - refine (conj eq_refl (conj eq_refl (conj eq_refl _))). eauto.
Qed.

(** In every case the log and [state.chart] are left alone, and a set
    fallback flag stays set. *)
Lemma renderFallbackChart_keeps (env : Env)
    (data_points : list Candles.Point) (variant : string) (w : World) :
  let w' := (renderFallbackChart env data_points variant w).2 in
  calls w' = calls w /\ chart w' = chart w /\
  (chartFallbackMode w = true -> chartFallbackMode w' = true).
Proof.
  destruct (containerPresent env) eqn:Hc.
  - pose proof (renderFallbackChart_container env data_points variant w Hc) as H.
    destruct (renderFallbackChart env data_points variant w) as [r w']. simpl.
    destruct H as (H1 & H2 & H3 & _). done.
  - by rewrite renderFallbackChart_no_container.
Qed.

Lemma groupByDate_error (data_points : list Candles.Point) :
  forall dailyData e, groupByDate dailyData data_points = inl e -> e = TypeError.
Proof.
  induction data_points as [|point rest IH]; intros dailyData e H; simpl in H; [done|].
  destruct (addToDay dailyData point) as [e'|d'] eqn:Hadd; [|eauto].
  unfold addToDay in Hadd.
  destruct (JS.get dailyData (Candles.date point)); congruence.
Qed.

(** Whatever the payload, [renderFallbackChart] throws nothing but a
    [TypeError] of its own. *)
Lemma renderFallbackChart_result (env : Env)
    (data_points : list Candles.Point) (variant : string) (w : World) :
  (renderFallbackChart env data_points variant w).1 <> inl ChartError.
Proof.
  unfold renderFallbackChart, bind, modify, lift.
  destruct (containerPresent env); simpl; [|done].
  destruct (groupByDate [] data_points) as [e|d] eqn:Hg; simpl; [|done].
  apply groupByDate_error in Hg as ->. done.
Qed.

(** ** [initChart] and the cases of [updateCandlestickChart] *)

Definition afterCreateChart (threw : bool) (w : World) : World :=
  logCall CreateChart threw (setMainChart Canvas (setMainChart Skeleton w)).

Lemma initChart_fresh (env : Env) (w : World) :
  chart w = None ->
  initChart env w =
    if negb (containerPresent env) then (inr false, w)
    else if negb (isChartLibraryAvailable env)
    then (inr false, setChartFallbackMode true (setMainChart Skeleton w))
    else if throwsAt env (length (calls w))
    then (inr false, setChartFallbackMode true (afterCreateChart true w))
    else (inr true,
          setChartFallbackMode false
            (setChart (Some (length (calls w))) (afterCreateChart false w))).
Proof.
  intros Hchart. unfold initChart.
  destruct (containerPresent env); simpl; [|done].
  unfold bind, get, tryCatch, modify, ret, libraryCall. simpl. rewrite Hchart. simpl.
  destruct (isChartLibraryAvailable env); simpl; [|done].
  by destruct (throwsAt env (length (calls w))).
Qed.

Lemma update_gate (env : Env) (data_points : list Candles.Point)
    (variant : string) (w : World) :
  chartFallbackMode w || negb (isChartLibraryAvailable env) = true ->
  updateCandlestickChart env data_points variant w =
    renderFallbackChart env data_points variant w.
Proof. intros H. unfold updateCandlestickChart, bind, get. by rewrite H. Qed.

Lemma update_live (env : Env) (data_points : list Candles.Point)
    (variant : string) (w : World) (c : nat) :
  chartFallbackMode w || negb (isChartLibraryAvailable env) = false ->
  chart w = Some c ->
  updateCandlestickChart env data_points variant w =
    tryCatch (renderChart env data_points variant)
             (renderFallbackChart env data_points variant) w.
Proof.
  intros H Hc. unfold updateCandlestickChart, bind, get. rewrite H, Hc. done.
Qed.

Lemma update_uninitialized (env : Env) (data_points : list Candles.Point)
    (variant : string) (w : World) :
  chartFallbackMode w || negb (isChartLibraryAvailable env) = false ->
  chart w = None ->
  updateCandlestickChart env data_points variant w =
    match initChart env w with
    | (inr true, w') =>
        tryCatch (renderChart env data_points variant)
                 (renderFallbackChart env data_points variant) w'
    | (inr false, w') => renderFallbackChart env data_points variant w'
    | (inl e, w') => (inl e, w')
    end.
Proof.
  intros H Hc. unfold updateCandlestickChart, bind, get. rewrite H, Hc.
  by destruct (initChart env w) as [[e|[|]] w'].
Qed.

(** A chart exists only on a page that has the element [#mainChart]:
    [initChart] creates none without it. *)
Definition sane (env : Env) (w : World) : Prop :=
  is_Some (chart w) -> containerPresent env = true.

(** The render attempt and its [catch]: with the container present, the
    statement either completes with no render call having thrown, or ends
    in the fallback. *)
Lemma tryRender_spec (env : Env) (data_points : list Candles.Point)
    (variant : string) (w : World) :
  containerPresent env = true ->
  let '(r, w1) := tryCatch (renderChart env data_points variant)
                           (renderFallbackChart env data_points variant) w in
  exists new,
    calls w1 = calls w ++ new /\ chart w1 = chart w /\
    r <> inl ChartError /\
    (cleanDates data_points -> r = inr tt) /\
    (quiet new \/
     (chartFallbackMode w1 = true /\
      (cleanDates data_points -> exists summary, mainChart w1 = FallbackTable summary))).
Proof.
  intros Hcont. unfold tryCatch.
  destruct (orderly_renderChart env data_points variant w)
    as (new & Hcalls & Hchart & Hfb & Hq).
  destruct (renderChart env data_points variant w) as [[e|[]] w1]; simpl in *.
  - pose proof (renderFallbackChart_container env data_points variant w1 Hcont) as Hf.
    pose proof (renderFallbackChart_result env data_points variant w1) as Hr.
    destruct (renderFallbackChart env data_points variant w1) as [r w2]. simpl in *.
    destruct Hf as (Hf1 & Hf2 & Hf3 & Hf4).
    exists new. rewrite Hf2, Hf3. split_and!; try done.
    + intros Hclean. by apply Hf4.
    + right. split; [done|]. intros Hclean. by apply Hf4.
  - exists new. split_and!; try done. left. by apply (Hq tt).
Qed.

(** One data update, from a sane world. *)
Lemma update_spec (env : Env) (data_points : list Candles.Point)
    (variant : string) (w : World) :
  sane env w ->
  let '(r, w1) := updateCandlestickChart env data_points variant w in
  exists new,
    calls w1 = calls w ++ new /\ sane env w1 /\
    r <> inl ChartError /\
    (cleanDates data_points -> r = inr tt) /\
    (quiet new \/
     (chartFallbackMode w1 = true /\
      (cleanDates data_points -> exists summary, mainChart w1 = FallbackTable summary))).
Proof.
  intros Hsane.
  destruct (chartFallbackMode w || negb (isChartLibraryAvailable env)) eqn:Hgate.
  { (* the gate sends the update to the fallback *)
    rewrite update_gate by done.
    pose proof (renderFallbackChart_keeps env data_points variant w) as Hk.
    pose proof (renderFallbackChart_result env data_points variant w) as Hr.
    destruct (containerPresent env) eqn:Hcont.
    - pose proof (renderFallbackChart_container env data_points variant w Hcont) as Hf.
      destruct (renderFallbackChart env data_points variant w) as [r w1]. simpl in *.
      destruct Hk as (Hk1 & Hk2 & _). destruct Hf as (_ & _ & _ & Hf4).
      exists []. rewrite app_nil_r. split_and!; try done.
      + intros _. done.
      + intros Hclean. by apply Hf4.
      + left. apply quiet_nil.
    - rewrite renderFallbackChart_no_container in * by done. simpl in *.
      exists []. rewrite app_nil_r. split_and!; try done. left. apply quiet_nil. }
  apply orb_false_iff in Hgate as Hgate'. destruct Hgate' as [Hfb Hlib].
  apply negb_false_iff in Hlib.
  destruct (chart w) as [c|] eqn:Hchart.
  { (* a chart exists *)
    rewrite (update_live env data_points variant w c) by done.
    assert (containerPresent env = true) as Hcont by (apply Hsane; by rewrite Hchart).
    pose proof (tryRender_spec env data_points variant w Hcont) as H.
    destruct (tryCatch _ _ w) as [r w1].
    destruct H as (new & H1 & H2 & H3 & H4 & H5).
    exists new. split_and!; try done. by intros _. }
  (* no chart yet: initChart first *)
  rewrite update_uninitialized by done. rewrite initChart_fresh by done.
  rewrite Hlib. simpl.
  destruct (containerPresent env) eqn:Hcont; simpl.
  - destruct (throwsAt env (length (calls w))) eqn:Hthrow.
    + (* createChart throws *)
      set (w0 := setChartFallbackMode true (afterCreateChart true w)).
      pose proof (renderFallbackChart_container env data_points variant w0 Hcont) as Hf.
      pose proof (renderFallbackChart_result env data_points variant w0) as Hr.
      destruct (renderFallbackChart env data_points variant w0) as [r w1]. simpl in *.
      destruct Hf as (Hf1 & Hf2 & Hf3 & Hf4).
      exists [(CreateChart, true)]. rewrite Hf2. split_and!; try done.
      * by intros _.
      * intros Hclean. by apply Hf4.
      * right. split; [done|]. intros Hclean. by apply Hf4.
    + (* the chart is created; the render attempt follows *)
      set (w0 := setChartFallbackMode false
                   (setChart (Some (length (calls w))) (afterCreateChart false w))).
      pose proof (tryRender_spec env data_points variant w0 Hcont) as H.
      destruct (tryCatch _ _ w0) as [r w1].
      destruct H as (new & H1 & H2 & H3 & H4 & H5).
      exists ((CreateChart, false) :: new). rewrite H1. simpl.
      rewrite <- app_assoc. split_and!; try done; [by intros _|].
      destruct H5 as [Hq|H5]; [left|by right]. by constructor.
  - (* no container: initChart gives up, and so does renderFallbackChart *)
    rewrite renderFallbackChart_no_container by done.
    exists []. rewrite app_nil_r. split_and!; try done.
    left. apply quiet_nil.
Qed.

(** ** Sessions *)

Lemma init_sane (env : Env) : sane env (init env).
Proof.
  unfold init. rewrite initChart_fresh by done. unfold sane.
  destruct (containerPresent env); simpl; [done|]. by intros [c Hc].
Qed.

Lemma update_sane (env : Env) (data_points : list Candles.Point)
    (variant : string) (w : World) :
  sane env w -> sane env (updateCandlestickChart env data_points variant w).2.
Proof.
  intros Hsane. pose proof (update_spec env data_points variant w Hsane) as H.
  destruct (updateCandlestickChart env data_points variant w) as [r w1].
  by destruct H as (new & _ & H & _).
Qed.

Lemma session_sane (env : Env) (updates : list (list Candles.Point * string)) :
  forall w, sane env w -> sane env (session env updates w).
Proof.
  induction updates as [|u rest IH]; intros w Hw; simpl; [done|].
  apply IH. by apply update_sane.
Qed.

Lemma session_snoc (env : Env) (updates : list (list Candles.Point * string))
    (u : list Candles.Point * string) (w : World) :
  session env (updates ++ [u]) w =
    (updateCandlestickChart env u.1 u.2 (session env updates w)).2.
Proof. unfold session. by rewrite foldl_app. Qed.

(** Once the gate of [updateCandlestickChart] is closed it stays closed:
    every update is the fallback rendering, the log of library calls does
    not grow and the flag stays set. *)
Lemma session_gate_closed (env : Env) (updates : list (list Candles.Point * string)) :
  forall w,
    chartFallbackMode w = true \/ isChartLibraryAvailable env = false ->
    calls (session env updates w) = calls w /\
    (chartFallbackMode w = true -> chartFallbackMode (session env updates w) = true).
Proof.
  induction updates as [|[d v] rest IH]; intros w Hgate; simpl; [done|].
  assert (chartFallbackMode w || negb (isChartLibraryAvailable env) = true) as Hg.
  { destruct Hgate as [-> | ->]; [done|]. apply orb_true_r. }
  rewrite (update_gate env d v w Hg).
  destruct (renderFallbackChart_keeps env d v w) as (Hc & _ & Hf).
  destruct (IH (renderFallbackChart env d v w).2) as (IH1 & IH2).
  { destruct Hgate as [Hfb|Hlib]; [left; by apply Hf|by right]. }
  rewrite IH1, Hc. split; [done|]. intros Hfb. apply IH2. by apply Hf.
Qed.

(** C5: when, in a data update of a session, a call that renders the
    chart ([createChart], [addCandlestickSeries], [setData] or
    [fitContent]) throws, the exception does not leave
    [updateCandlestickChart]; the fallback flag is set, so the manager is
    in [Fallback]; and from then on every data update of the session is
    the fallback rendering and makes no call into the chart library. For a
    payload with clean dates the update that failed returns normally and
    shows the summary table. *)
Theorem render_failure_is_terminal (env : Env)
    (before : list (list Candles.Point * string))
    (data_points : list Candles.Point) (variant : string)
    (r : Exn + unit) (w1 : World) :
  updateCandlestickChart env data_points variant
    (session env before (init env)) = (r, w1) ->
  renderThrew (session env before (init env)) w1 ->
  r <> inl ChartError /\
  (cleanDates data_points ->
   r = inr tt /\ exists summary, mainChart w1 = FallbackTable summary) /\
  chartFallbackMode w1 = true /\
  renderState env w1 = Fallback /\
  forall (later : list (list Candles.Point * string))
         (d : list Candles.Point) (v : string),
    let w2 := session env later w1 in
    chartFallbackMode w2 = true /\
    calls w2 = calls w1 /\
    updateCandlestickChart env d v w2 = renderFallbackChart env d v w2 /\
    calls (updateCandlestickChart env d v w2).2 = calls w1.
Proof.
  intros Hrun (c & Hin & Hrender).
  pose proof (update_spec env data_points variant _
                (session_sane env before _ (init_sane env))) as H.
  rewrite Hrun in H. destruct H as (new & Hcalls & _ & Hr & Hclean & Hq).
  unfold newCalls in Hin. rewrite Hcalls, drop_app_length in Hin.
  destruct Hq as [Hq|[Hfb Hview]].
  { unfold quiet in Hq. rewrite Forall_forall in Hq.
    specialize (Hq _ Hin eq_refl). simpl in Hq. congruence. }
  assert (renderState env w1 = Fallback) as Hstate
    by (unfold renderState; by rewrite Hfb).
  split_and!; try done.
  - intros Hc. split; [by apply Hclean|by apply Hview].
  - intros later d v w2.
    destruct (session_gate_closed env later w1 (or_introl Hfb)) as (Hc2 & Hf2).
    specialize (Hf2 Hfb). fold w2 in Hc2, Hf2.
    assert (chartFallbackMode w2 || negb (isChartLibraryAvailable env) = true) as Hg
      by (by rewrite Hf2).
    rewrite (update_gate env d v w2 Hg).
    destruct (renderFallbackChart_keeps env d v w2) as (Hk & _).
    split_and!; try done. by rewrite Hk.
Qed.

(** A page with the chart library, on which the second call into the
    library (the first [addCandlestickSeries]) throws. *)
Definition flakyEnv : Env :=
  {| isChartLibraryAvailable := true; containerPresent := true; legendPresent := true;
     throwsAt := fun n => (n =? 1)%nat;
     localeCompare := fun a b =>
       match String.compare a b with Lt => -1 | Eq => 0 | Gt => 1 end |}.

Definition afterFailure : World :=
  (updateCandlestickChart flakyEnv Candles.examplePoints "all"
     (session flakyEnv [] (init flakyEnv))).2.

Lemma render_failure_is_terminal_witness :
  @inr Exn unit tt <> inl ChartError /\
  (cleanDates Candles.examplePoints ->
   @inr Exn unit tt = inr tt /\
   exists summary, mainChart afterFailure = FallbackTable summary) /\
  chartFallbackMode afterFailure = true /\
  renderState flakyEnv afterFailure = Fallback /\
  forall (later : list (list Candles.Point * string))
         (d : list Candles.Point) (v : string),
    let w2 := session flakyEnv later afterFailure in
    chartFallbackMode w2 = true /\
    calls w2 = calls afterFailure /\
    updateCandlestickChart flakyEnv d v w2 = renderFallbackChart flakyEnv d v w2 /\
    calls (updateCandlestickChart flakyEnv d v w2).2 = calls afterFailure.
Proof.
  apply (render_failure_is_terminal flakyEnv [] Candles.examplePoints "all").
  - reflexivity.
  - exists (AddCandlestickSeries (Some "Jumbo")). split; [|reflexivity].
    vm_compute. apply list_elem_of_here.
Defined.

(** C8: when the chart library is not defined, the manager is in
    [Fallback] as soon as [init] has run (with the flag set if the page
    has the chart container), [init] has made no call into the library,
    every data update is the fallback rendering, and a session of data
    updates makes no call into the library at all. *)
Theorem no_library_no_chart_calls (env : Env)
    (updates : list (list Candles.Point * string)) :
  isChartLibraryAvailable env = false ->
  renderState env (init env) = Fallback /\
  (containerPresent env = true -> chartFallbackMode (init env) = true) /\
  calls (init env) = [] /\
  (forall w d v,
     updateCandlestickChart env d v w = renderFallbackChart env d v w /\
     calls (updateCandlestickChart env d v w).2 = calls w) /\
  calls (session env updates (init env)) = [] /\
  renderState env (session env updates (init env)) = Fallback.
Proof.
  intros Hlib.
  assert (forall w, renderState env w = Fallback) as Hstate.
  { intros w. unfold renderState. rewrite Hlib. by rewrite orb_true_r. }
  assert (calls (init env) = []) as Hinit.
  { unfold init. rewrite initChart_fresh by done. rewrite Hlib.
    by destruct (containerPresent env). }
  split_and!; try done.
  - intros Hcont. unfold init. rewrite initChart_fresh by done.
    by rewrite Hlib, Hcont.
  - intros w d v.
    assert (chartFallbackMode w || negb (isChartLibraryAvailable env) = true) as Hg
      by (rewrite Hlib; apply orb_true_r).
    rewrite (update_gate env d v w Hg). split; [done|].
    by destruct (renderFallbackChart_keeps env d v w) as (Hk & _).
  - destruct (session_gate_closed env updates (init env) (or_intror Hlib)) as (Hc & _).
    by rewrite Hc.
Qed.

(** A page on which the chart library failed to load. *)
Definition noLibraryEnv : Env :=
  {| isChartLibraryAvailable := false; containerPresent := true; legendPresent := true;
     throwsAt := fun _ => false;
     localeCompare := fun a b =>
       match String.compare a b with Lt => -1 | Eq => 0 | Gt => 1 end |}.

Lemma no_library_no_chart_calls_witness :
  let updates := [(Candles.examplePoints, "all"); (Candles.examplePoints, "jumbo")] in
  renderState noLibraryEnv (init noLibraryEnv) = Fallback /\
  (containerPresent noLibraryEnv = true ->
   chartFallbackMode (init noLibraryEnv) = true) /\
  calls (init noLibraryEnv) = [] /\
  (forall w d v,
     updateCandlestickChart noLibraryEnv d v w = renderFallbackChart noLibraryEnv d v w /\
     calls (updateCandlestickChart noLibraryEnv d v w).2 = calls w) /\
  calls (session noLibraryEnv updates (init noLibraryEnv)) = [] /\
  renderState noLibraryEnv (session noLibraryEnv updates (init noLibraryEnv)) = Fallback.
Proof.
  apply (no_library_no_chart_calls noLibraryEnv
           [(Candles.examplePoints, "all"); (Candles.examplePoints, "jumbo")]).
  reflexivity.
Defined.

(** C10: for a payload without data points the fallback renderer
    returns normally, and on a page that has the chart container it sets
    the flag and writes a summary whose average, high and low are 0 (the
    guards on [allPrices.length] choose the literal 0), whose count of
    sales is 0 and whose table of days has no row. Without the container
    it writes nothing. *)
Theorem empty_payload_summary (env : Env) (variant : string) (w : World) :
  average [] = 0%Q /\ highest [] = 0%Q /\ lowest [] = 0%Q /\
  renderFallbackChart env [] variant w =
    if containerPresent env
    then (inr tt,
          setMainChart
            (FallbackTable {| avg := 0%Q; high := 0%Q; low := 0%Q;
                              totalSales := 0; sortedDays := [] |})
            (setChartFallbackMode true w))
    else (inr tt, w).
Proof.
  split_and!; try done. unfold renderFallbackChart.
  by destruct (containerPresent env).
Qed.

(** A page on which the chart library works. *)
Definition liveEnv : Env :=
  {| isChartLibraryAvailable := true; containerPresent := true; legendPresent := true;
     throwsAt := fun _ => false;
     localeCompare := fun a b =>
       match String.compare a b with Lt => -1 | Eq => 0 | Gt => 1 end |}.

(** A sale whose variant label is not one of the three known ones. *)
Definition strayPoint : Candles.Point :=
  {| Candles.x := 1000; Candles.y := 100; Candles.variant := "constructor";
     Candles.date := "2025-01-01" |}.

(** C9: labels other than the three known variants are said to be dropped
    at the grouping step without an error. The label [constructor] is
    not: [variantGroups["constructor"]] is the inherited
    [Object.prototype.constructor], which is truthy and has no [push], so
    the grouping throws a [TypeError]. On a page whose chart works, the
    update then attaches no series and ends in the fallback, with the
    fallback flag set for the rest of the session. A label that is no
    property at all, such as [retail], is dropped. *)
Theorem inherited_label_is_not_dropped :
  Candles.groupByVariant (Candles.examplePoints ++ [strayPoint]) = inl TypeError /\
  (let w := init liveEnv in
   let w1 := (updateCandlestickChart liveEnv
                (Candles.examplePoints ++ [strayPoint]) "all" w).2 in
   renderState liveEnv w = Live /\
   newCalls w w1 = [] /\
   chartSeries w1 = [] /\
   chartFallbackMode w1 = true /\
   renderState liveEnv w1 = Fallback) /\
  Candles.groupByVariant
    (Candles.examplePoints ++
       [{| Candles.x := 1000; Candles.y := 100; Candles.variant := "retail";
           Candles.date := "2025-01-01" |}]) =
    Candles.groupByVariant Candles.examplePoints.
Proof. by vm_compute. Qed.

(** ** What reaches the chart *)

(** The candle arrays handed to [setData] among the logged calls. *)
Definition payloads (entries : list (ChartCall * bool)) : list (list Candles.Candle) :=
  omap (fun e => match e.1 with
                 | SetData _ candleData => Some candleData
                 | _ => None
                 end) entries.

Lemma payloads_app (l1 l2 : list (ChartCall * bool)) :
  payloads (l1 ++ l2) = payloads l1 ++ payloads l2.
Proof. apply omap_app. Qed.

(** When no call throws, the loop over the groups hands to [setData]
    exactly the candle arrays of [Candles.overlaySeries], in order. *)
Lemma forEach_cons {A : Type} (a : A) (rest : list A) (f : A -> M unit) (w : World) :
  forEach (a :: rest) f w =
    match f a w with
    | (inr _, w') => forEach rest f w'
    | (inl e, w') => (inl e, w')
    end.
Proof. reflexivity. Qed.

Lemma attachSeries_ok (env : Env) (variantKey : string)
    (p : Candles.Point) (points : list Candles.Point) (w : World) :
  (forall n, throwsAt env n = false) ->
  exists title,
    attachSeries env (variantKey, p :: points) w =
      (inr tt,
       pushSeries (length (calls w))
         (logCall (SetData (length (calls w))
                     (Candles.overlayCandles variantKey (p :: points))) false
            (logCall (AddCandlestickSeries title) false w))).
Proof.
  intros Hok. exists (JS.own VARIANT_LABELS variantKey).
  unfold attachSeries, bind, libraryCall, modify.
  rewrite Hok. cbn [calls logCall]. by rewrite Hok.
Qed.

Lemma overlay_loop_payloads (env : Env) (groups : list (string * list Candles.Point)) :
  (forall n, throwsAt env n = false) ->
  forall w,
    (forEach groups (attachSeries env) w).1 = inr tt /\
    exists new,
      calls (forEach groups (attachSeries env) w).2 = calls w ++ new /\
      payloads new = (Candles.overlaySeries groups).*2.
Proof.
  intros Hok. induction groups as [|[k points] rest IH]; intros w.
  - split; [done|]. exists []. simpl. by rewrite app_nil_r.
  - rewrite forEach_cons. destruct points as [|p points].
    + cbn [attachSeries ret]. apply IH.
    + destruct (attachSeries_ok env k p points w Hok) as [title ->].
      match goal with |- context [forEach rest _ ?w0] =>
        destruct (IH w0) as (Hr & new & Hcalls & Hpay) end.
      split; [done|]. eexists. rewrite Hcalls. cbn [calls pushSeries setChartSeries logCall].
      rewrite <- !app_assoc. split; [done|].
      rewrite !payloads_app, Hpay. done.
Qed.

Lemma renderAll_payloads (env : Env) (data_points : list Candles.Point)
    (groups : list (string * list Candles.Point)) (w : World) :
  (forall n, throwsAt env n = false) ->
  Candles.groupByVariant data_points = inr groups ->
  (renderAll env data_points w).1 = inr tt /\
  payloads (newCalls w (renderAll env data_points w).2) =
    (Candles.overlaySeries groups).*2.
Proof.
  intros Hok Hg.
  destruct (overlay_loop_payloads env groups Hok w) as (Hr & new & Hcalls & Hpay).
  unfold renderAll, bind, lift. rewrite Hg.
  destruct (forEach groups (attachSeries env) w) as [r w1]. simpl in Hr, Hcalls. subst r.
  unfold libraryCall, ret. rewrite Hok. simpl. split; [done|].
  unfold newCalls, logCall. cbn [calls].
  rewrite Hcalls, <- app_assoc, drop_app_length, payloads_app.
  simpl. by rewrite app_nil_r.
Qed.

(** The calls of a first update on a page whose chart works. *)
Example example_update_log :
  fst <$> calls (session liveEnv [(Candles.examplePoints, "all")] (init liveEnv)) =
    [CreateChart;
     AddCandlestickSeries (Some "Jumbo");
     SetData 1 (Candles.overlayCandles "jumbo"
                  (filter (fun p => Candles.variant p = "jumbo") Candles.examplePoints));
     AddCandlestickSeries (Some "Hobby");
     SetData 3 (Candles.overlayCandles "hobby"
                  (filter (fun p => Candles.variant p = "hobby") Candles.examplePoints));
     FitContent].
Proof. reflexivity. Qed.

(** An exception of [removeSeries] is swallowed where it is thrown: the
    update goes on and the chart stays live. Here the second update
    removes the two series of the first, and the first removal throws. *)
Example removeSeries_failure_is_swallowed :
  let env := {| isChartLibraryAvailable := true; containerPresent := true;
                legendPresent := true; throwsAt := fun n => (n =? 6)%nat;
                localeCompare := localeCompare liveEnv |} in
  let w := session env [(Candles.examplePoints, "all");
                        (Candles.examplePoints, "all")] (init env) in
  (RemoveSeries 1, true) ∈ calls w /\
  chartFallbackMode w = false /\ renderState env w = Live /\
  length (chartSeries w) = 2%nat.
Proof. split; [|done]. vm_compute. do 6 apply list_elem_of_further. apply list_elem_of_here. Qed.

(** ** The rows of the fallback table *)

Lemma own_Some_elem {A : Type} (obj : list (string * A)) (k : string) (v : A) :
  own obj k = Some v -> (k, v) ∈ obj.
Proof.
  induction obj as [|[k' v'] rest IH]; simpl; [done|].
  destruct (String.eqb_spec k' k) as [->|Hne].
  - intros [= ->]. apply list_elem_of_here.
  - intros H. apply list_elem_of_further. by apply IH.
Qed.

Lemma own_None_keys {A : Type} (obj : list (string * A)) (k : string) :
  own obj k = None -> k ∉ obj.*1.
Proof.
  induction obj as [|[k' v'] rest IH]; simpl; [intros _; apply not_elem_of_nil|].
  destruct (String.eqb_spec k' k) as [->|Hne]; [done|].
  intros H. apply not_elem_of_cons. split; [done|by apply IH].
Qed.

Lemma update_keys {A : Type} (f : A -> A) (k : string) (obj : list (string * A)) :
  (update f k obj).*1 = obj.*1.
Proof.
  unfold update. rewrite <- list_fmap_compose. apply list_fmap_ext.
  intros _ [k' v] _. simpl. by destruct (String.eqb k' k).
Qed.

Lemma update_absent {A : Type} (f : A -> A) (k : string) (obj : list (string * A)) :
  k ∉ obj.*1 -> update f k obj = obj.
Proof.
  induction obj as [|[k' v] rest IH]; intros Hk; [done|].
  simpl in Hk. apply not_elem_of_cons in Hk as [Hne Hk].
  unfold update in *. rewrite fmap_cons, (IH Hk). simpl.
  destruct (String.eqb_spec k' k) as [->|_]; done.
Qed.

Lemma update_elem {A : Type} (f : A -> A) (k : string) (obj : list (string * A))
    (k' : string) (v' : A) :
  (k', v') ∈ update f k obj ->
  exists v, (k', v) ∈ obj /\ v' = if String.eqb k' k then f v else v.
Proof.
  unfold update. intros H. apply list_elem_of_fmap in H as ([k0 v0] & Heq & Hin).
  simpl in Heq. destruct (String.eqb k0 k) eqn:E; injection Heq as -> ->;
    exists v0; by rewrite E.
Qed.

(** The entries of [dailyData] after the points [seen]: one entry per
    date that occurs, holding the prices of that date in the order of the
    payload, with their number as count. *)
Record Grouped (dailyData : list (string * Day)) (seen : list Candles.Point)
    : Prop := {
  grouped_keys : NoDup dailyData.*1;
  grouped_all : forall p, p ∈ seen -> Candles.date p ∈ dailyData.*1;
  grouped_day : forall k d, (k, d) ∈ dailyData ->
    day d = k /\
    prices d = Candles.y <$> filter (fun p => Candles.date p = k) seen /\
    count d = length (prices d) /\
    prices d <> [];
  grouped_total : sum_list ((fun kv => count kv.2) <$> dailyData) = length seen
}.

Lemma sum_counts_update (k : string) (dailyData : list (string * Day)) (q : Q) :
  NoDup dailyData.*1 -> k ∈ dailyData.*1 ->
  sum_list ((fun kv => count kv.2) <$>
     update (fun d => {| day := day d; prices := prices d ++ [q];
                         count := S (count d) |}) k dailyData) =
  S (sum_list ((fun kv => count kv.2) <$> dailyData)).
Proof.
  induction dailyData as [|[k' d] rest IH]; intros Hnd Hin;
    [by apply elem_of_nil in Hin|].
  simpl in Hnd. apply NoDup_cons in Hnd as [Hk' Hnd].
  unfold update in *. rewrite !fmap_cons. cbn [sum_list sum_list_with fst snd].
  destruct (String.eqb_spec k' k) as [->|Hne]; cbn [count snd].
  - fold (update (fun d => {| day := day d; prices := prices d ++ [q];
                              count := S (count d) |}) k rest).
    rewrite update_absent by done. done.
  - simpl in Hin. apply elem_of_cons in Hin as [Hin|Hin]; [congruence|].
    rewrite (IH Hnd Hin). lia.
Qed.

Lemma filter_none {A : Type} (P : A -> Prop) `{forall a, Decision (P a)} (l : list A) :
  (forall a, a ∈ l -> ~ P a) -> filter P l = [].
Proof.
  induction l as [|a rest IH]; intros Hno; [done|].
  rewrite filter_cons_False by (apply Hno, list_elem_of_here).
  apply IH. intros b Hb. by apply Hno, list_elem_of_further.
Qed.

Lemma addToDay_Grouped (dailyData : list (string * Day))
    (seen : list Candles.Point) (point : Candles.Point) :
  Grouped dailyData seen ->
  inherited (Candles.date point) = false ->
  exists dailyData',
    addToDay dailyData point = inr dailyData' /\
    Grouped dailyData' (seen ++ [point]).
Proof.
  intros [Hkeys Hall Hday Htotal] Hclean. unfold addToDay, JS.get.
  destruct (own dailyData (Candles.date point)) as [d0|] eqn:Hown.
  - (* the date has an entry already *)
    eexists. split; [done|].
    assert (Candles.date point ∈ dailyData.*1) as Hin.
    { apply own_Some_elem in Hown.
      by apply (list_elem_of_fmap_2 fst) in Hown. }
    split.
    + by rewrite update_keys.
    + intros p Hp. rewrite update_keys.
      apply elem_of_app in Hp as [Hp|Hp]; [by apply Hall|].
      apply list_elem_of_singleton in Hp as ->. done.
    + intros k d' Hd'. apply update_elem in Hd' as (d & Hd & ->).
      destruct (Hday k d Hd) as (H1 & H2 & H3 & H4).
      rewrite filter_app, fmap_app.
      destruct (String.eqb_spec k (Candles.date point)) as [->|Hne]; simpl.
      * rewrite filter_cons_True by done. rewrite filter_nil. simpl.
        rewrite H2 in *. split_and!; try done.
        -- rewrite !length_app. simpl. lia.
        -- intros [_ Hnil]%app_eq_nil. discriminate Hnil.
      * rewrite filter_cons_False by congruence. rewrite filter_nil. simpl.
        by rewrite app_nil_r.
    + rewrite sum_counts_update by done. rewrite length_app. simpl. lia.
  - (* a new date *)
    rewrite Hclean. eexists. split; [done|].
    apply own_None_keys in Hown.
    split.
    + rewrite fmap_app. apply NoDup_app. split_and!; [done| |apply NoDup_singleton].
      intros k Hk Hk'. simpl in Hk'. apply list_elem_of_singleton in Hk' as ->. done.
    + intros p Hp. rewrite fmap_app. apply elem_of_app.
      apply elem_of_app in Hp as [Hp|Hp]; [left; by apply Hall|].
      apply list_elem_of_singleton in Hp as ->. right. apply list_elem_of_here.
    + intros k d Hd. rewrite filter_app, fmap_app.
      apply elem_of_app in Hd as [Hd|Hd].
      * assert (k <> Candles.date point) as Hne.
        { intros ->. apply Hown. by apply (list_elem_of_fmap_2 fst) in Hd. }
        rewrite filter_cons_False by congruence. rewrite filter_nil. simpl.
        rewrite app_nil_r. by apply Hday.
      * apply list_elem_of_singleton in Hd. injection Hd as -> ->. simpl.
        rewrite filter_cons_True by done. rewrite filter_nil.
        rewrite (filter_none _ seen); [done|].
        intros p Hp Hdate. apply Hown. rewrite <- Hdate. by apply Hall.
    + rewrite fmap_app, sum_list_with_app, Htotal, length_app. simpl. lia.
Qed.

Lemma groupByDate_Grouped (rest : list Candles.Point) :
  cleanDates rest ->
  forall dailyData seen,
    Grouped dailyData seen ->
    exists dailyData',
      groupByDate dailyData rest = inr dailyData' /\
      Grouped dailyData' (seen ++ rest).
Proof.
  induction 1 as [|point rest Hp _ IH]; intros dailyData seen Hg; simpl.
  - exists dailyData. by rewrite app_nil_r.
  - destruct (addToDay_Grouped dailyData seen point Hg Hp) as (d1 & -> & Hg1).
    destruct (IH d1 (seen ++ [point]) Hg1) as (d2 & -> & Hg2).
    exists d2. split; [done|]. by rewrite <- app_assoc in Hg2.
Qed.

Lemma insertDay_perm (env : Env) (d : Day) (l : list Day) :
  insertDay env d l ≡ₚ d :: l.
Proof.
  induction l as [|q rest IH]; simpl; [done|].
  destruct (localeCompare env (day q) (day d) <=? 0); [done|].
  rewrite IH. apply Permutation_swap.
Qed.

Lemma sortDays_perm (env : Env) (l : list Day) : sortDays env l ≡ₚ l.
Proof.
  induction l as [|d rest IH]; simpl; [done|].
  rewrite insertDay_perm. by rewrite IH.
Qed.

(** X12: the rows of the fallback table are well formed. For a payload
    with clean dates the grouping by date returns; no two rows show the
    same date and there are at most ten, as many as there are dates up to
    that; each row holds exactly the prices of the sales of its date, in
    the order of the payload, and at least one, so that its average,
    highest and lowest price are defined; its count is the number of its
    prices; and over all dates the counts add up to the number of sales,
    whatever collation [localeCompare] uses. *)
Theorem fallback_rows_well_formed (env : Env) (data_points : list Candles.Point) :
  cleanDates data_points ->
  exists dailyData,
    groupByDate [] data_points = inr dailyData /\
    sum_list ((fun kv => count kv.2) <$> dailyData) = length data_points /\
    let rows := sortedDays (summarize env dailyData data_points) in
    length rows = (10 `min` length dailyData)%nat /\
    NoDup (day <$> rows) /\
    forall row, row ∈ rows ->
      (exists p, p ∈ data_points /\ Candles.date p = day row) /\
      prices row =
        Candles.y <$> filter (fun p => Candles.date p = day row) data_points /\
      count row = length (prices row) /\
      (0 < count row)%nat.
Proof.
  intros Hclean.
  destruct (groupByDate_Grouped data_points Hclean [] []) as (days & Hg & HG).
  { split; simpl; [constructor|by intros p ?%elem_of_nil
                  |by intros k d ?%elem_of_nil|done]. }
  simpl in HG. destruct HG as [Hkeys Hall Hday Htotal].
  exists days. split; [done|]. split; [done|]. simpl.
  assert (day <$> days.*2 = days.*1) as Hdays.
  { rewrite <- list_fmap_compose. apply list_fmap_ext. intros i [k d] Hi. simpl.
    apply list_elem_of_lookup_2 in Hi. by destruct (Hday k d Hi). }
  split_and!.
  - by rewrite length_take, (sortDays_perm env days.*2), length_fmap.
  - rewrite fmap_take. eapply sublist_NoDup; [|apply sublist_take].
    by rewrite (sortDays_perm env days.*2), Hdays.
  - intros row Hrow.
    assert (row ∈ days.*2) as Hin.
    { rewrite <- (sortDays_perm env days.*2).
      apply elem_of_take in Hrow as (i & Hi & _).
      by eapply list_elem_of_lookup_2. }
    apply list_elem_of_fmap in Hin as ([k d] & -> & Hkd). simpl.
    destruct (Hday k d Hkd) as (H1 & H2 & H3 & H4). rewrite H1.
    split_and!; try done.
    + destruct (filter (fun p => Candles.date p = k) data_points) as [|p ps] eqn:Hf.
      { by rewrite H2 in H4. }
      assert (p ∈ filter (fun p => Candles.date p = k) data_points) as Hp
        by (rewrite Hf; apply list_elem_of_here).
      apply list_elem_of_filter in Hp as [Hd Hp]. eauto.
    + rewrite H3. destruct (prices d); [done|simpl; lia].
Qed.

Lemma fallback_rows_well_formed_witness :
  exists dailyData,
    groupByDate [] Candles.examplePoints = inr dailyData /\
    sum_list ((fun kv => count kv.2) <$> dailyData) = length Candles.examplePoints /\
    let rows := sortedDays (summarize liveEnv dailyData Candles.examplePoints) in
    length rows = (10 `min` length dailyData)%nat /\
    NoDup (day <$> rows) /\
    forall row, row ∈ rows ->
      (exists p, p ∈ Candles.examplePoints /\ Candles.date p = day row) /\
      prices row =
        Candles.y <$> filter (fun p => Candles.date p = day row) Candles.examplePoints /\
      count row = length (prices row) /\
      (0 < count row)%nat.
Proof.
  apply (fallback_rows_well_formed liveEnv Candles.examplePoints).
  repeat constructor.
Defined.

(** ** The overall statistics *)

Lemma foldl_Qmax_bounds (l : list Q) :
  forall acc,
    (acc <= foldl Qmax acc l)%Q /\
    Forall (fun q => (q <= foldl Qmax acc l)%Q) l.
Proof.
  induction l as [|q rest IH]; intros acc; simpl.
  - split; [apply Qle_refl|constructor].
  - destruct (IH (Qmax acc q)) as [H1 H2]. split.
    + eapply Qle_trans; [apply Q.le_max_l|exact H1].
    + constructor; [|done]. eapply Qle_trans; [apply Q.le_max_r|exact H1].
Qed.

Lemma foldl_Qmin_bounds (l : list Q) :
  forall acc,
    (foldl Qmin acc l <= acc)%Q /\
    Forall (fun q => (foldl Qmin acc l <= q)%Q) l.
Proof.
  induction l as [|q rest IH]; intros acc; simpl.
  - split; [apply Qle_refl|constructor].
  - destruct (IH (Qmin acc q)) as [H1 H2]. split.
    + eapply Qle_trans; [exact H1|apply Q.le_min_l].
    + constructor; [|done]. eapply Qle_trans; [exact H1|apply Q.le_min_r].
Qed.

Lemma foldl_Qmax_attained (l : list Q) :
  forall acc, foldl Qmax acc l ∈ acc :: l.
Proof.
  induction l as [|q rest IH]; intros acc; simpl; [by left|].
  specialize (IH (Qmax acc q)). apply elem_of_cons in IH as [->|IH].
  - unfold Qmax, GenericMinMax.gmax.
    destruct (acc ?= q)%Q; [by left| right; by left |by left].
  - right. by right.
Qed.

Lemma foldl_Qmin_attained (l : list Q) :
  forall acc, foldl Qmin acc l ∈ acc :: l.
Proof.
  induction l as [|q rest IH]; intros acc; simpl; [by left|].
  specialize (IH (Qmin acc q)). apply elem_of_cons in IH as [->|IH].
  - unfold Qmin, GenericMinMax.gmin.
    destruct (acc ?= q)%Q; [by left| by left | right; by left].
  - right. by right.
Qed.

(** X13: the high and the low of the fallback summary are prices of the
    payload. For a payload with at least one sale, the low is at most
    every price and the high at least every price, and each of the two is
    the price of some sale: the value 0 of the guard for an empty payload
    never shows for a payload with sales. *)
Theorem summary_statistics_bounds (env : Env)
    (dailyData : list (string * Day)) (data_points : list Candles.Point) :
  data_points <> [] ->
  let summary := summarize env dailyData data_points in
  Forall (fun p => (low summary <= Candles.y p)%Q /\
                   (Candles.y p <= high summary)%Q) data_points /\
  (exists p, p ∈ data_points /\ low summary = Candles.y p) /\
  (exists p, p ∈ data_points /\ high summary = Candles.y p).
Proof.
  intros Hne. simpl.
  destruct data_points as [|p ps]; [done|]. cbn [fmap list_fmap lowest highest].
  destruct (foldl_Qmax_bounds (Candles.y <$> ps) (Candles.y p)) as [Hx1 Hx2].
  destruct (foldl_Qmin_bounds (Candles.y <$> ps) (Candles.y p)) as [Hn1 Hn2].
  split_and!.
  - constructor; [done|].
    rewrite Forall_forall in Hx2, Hn2. apply Forall_forall. intros q Hq.
    split; [apply Hn2|apply Hx2]; by apply list_elem_of_fmap_2.
  - pose proof (foldl_Qmin_attained (Candles.y <$> ps) (Candles.y p)) as Hin.
    change (Candles.y p :: (Candles.y <$> ps))
      with (Candles.y <$> p :: ps) in Hin.
    apply list_elem_of_fmap in Hin as (q & Hq & Hin). by exists q.
  - pose proof (foldl_Qmax_attained (Candles.y <$> ps) (Candles.y p)) as Hin.
    change (Candles.y p :: (Candles.y <$> ps))
      with (Candles.y <$> p :: ps) in Hin.
    apply list_elem_of_fmap in Hin as (q & Hq & Hin). by exists q.
Qed.

Lemma summary_statistics_bounds_witness :
  let summary := summarize liveEnv [] Candles.examplePoints in
  Forall (fun p => (low summary <= Candles.y p)%Q /\
                   (Candles.y p <= high summary)%Q) Candles.examplePoints /\
  (exists p, p ∈ Candles.examplePoints /\ low summary = Candles.y p) /\
  (exists p, p ∈ Candles.examplePoints /\ high summary = Candles.y p).
Proof.
  apply (summary_statistics_bounds liveEnv [] Candles.examplePoints). discriminate.
Defined.

(** ** The chart is created once *)

Definition isCreateChart (c : ChartCall) : bool :=
  match c with
  | CreateChart => true
  | _ => false
  end.

(** A computation that only appends calls satisfying [P] to the log. *)
Definition appends (P : ChartCall -> Prop) {A : Type} (m : M A) : Prop :=
  forall w, exists new,
    calls (m w).2 = calls w ++ new /\ Forall (fun e => P e.1) new.

Lemma appends_pure (P : ChartCall -> Prop) {A : Type} (m : M A) :
  (forall w, calls (m w).2 = calls w) -> appends P m.
Proof. intros H w. exists []. rewrite H, app_nil_r. split; [done|constructor]. Qed.

Lemma appends_bind (P : ChartCall -> Prop) {A B : Type} (m : M A) (f : A -> M B) :
  appends P m -> (forall a, appends P (f a)) -> appends P (bind m f).
Proof.
  intros Hm Hf w. destruct (Hm w) as (n1 & Hc1 & Hp1).
  unfold bind. destruct (m w) as [[e|a] w1]; simpl in *; [by exists n1|].
  destruct (Hf a w1) as (n2 & Hc2 & Hp2).
  exists (n1 ++ n2). rewrite Hc2, Hc1, app_assoc. split; [done|].
  by apply Forall_app.
Qed.

Lemma appends_tryCatch (P : ChartCall -> Prop) {A : Type} (m handler : M A) :
  appends P m -> appends P handler -> appends P (tryCatch m handler).
Proof.
  intros Hm Hh w. destruct (Hm w) as (n1 & Hc1 & Hp1).
  unfold tryCatch. destruct (m w) as [[e|a] w1]; simpl in *; [|by exists n1].
  destruct (Hh w1) as (n2 & Hc2 & Hp2).
  exists (n1 ++ n2). rewrite Hc2, Hc1, app_assoc. split; [done|].
  by apply Forall_app.
Qed.

Lemma appends_libraryCall (P : ChartCall -> Prop) (env : Env) (c : ChartCall) :
  P c -> appends P (libraryCall env c).
Proof.
  intros Hc w. unfold libraryCall.
  destruct (throwsAt env (length (calls w))); eexists; simpl;
    (split; [done|by repeat constructor]).
Qed.

Lemma appends_forEach (P : ChartCall -> Prop) {A : Type} (l : list A)
    (f : A -> M unit) :
  (forall a, appends P (f a)) -> appends P (forEach l f).
Proof.
  intros Hf. induction l as [|a rest IH]; simpl.
  - by apply appends_pure.
  - apply appends_bind; [apply Hf|]. by intros _.
Qed.

(** The render attempt makes every kind of call but [createChart]. *)
Lemma renderChart_never_creates (env : Env) (data_points : list Candles.Point)
    (variant : string) :
  appends (fun c => isCreateChart c = false) (renderChart env data_points variant).
Proof.
  unfold renderChart.
  apply appends_bind.
  { unfold removeAllSeries. apply appends_bind; [by apply appends_pure|].
    intros w. apply appends_forEach. intros series.
    apply appends_tryCatch; [|by apply appends_pure].
    apply appends_bind; [by apply appends_libraryCall|].
    intros _. by apply appends_pure. }
  intros _. apply appends_bind; [by apply appends_pure|].
  intros _. destruct (String.eqb variant "all").
  - unfold renderAll. apply appends_bind; [by apply appends_pure|].
    intros groups. apply appends_bind.
    + apply appends_forEach. intros [k points]. unfold attachSeries.
      destruct points as [|p points]; [by apply appends_pure|].
      apply appends_bind; [by apply appends_libraryCall|]. intros series.
      apply appends_bind; [by apply appends_libraryCall|]. intros _.
      by apply appends_pure.
    + intros _. apply appends_bind; [by apply appends_libraryCall|].
      intros _. by apply appends_pure.
  - unfold renderSingle.
    apply appends_bind; [by apply appends_libraryCall|]. intros series.
    apply appends_bind.
    + destruct (Candles.singleCandles data_points); [by apply appends_pure|].
      apply appends_bind; [by apply appends_libraryCall|]. intros _.
      apply appends_bind; [by apply appends_libraryCall|]. intros _.
      by apply appends_pure.
    + intros _. apply appends_bind; [by apply appends_pure|].
      intros _. unfold updateChartLegend.
      destruct (legendPresent env); by apply appends_pure.
Qed.

(** After [init], a data update finds a chart, or a closed gate, or a
    page on which [initChart] gives up before creating one. *)
Definition settledInit (env : Env) (w : World) : Prop :=
  chart w = None ->
  chartFallbackMode w = true \/ containerPresent env = false \/
  isChartLibraryAvailable env = false.

Lemma update_never_creates (env : Env) (data_points : list Candles.Point)
    (variant : string) (w : World) :
  settledInit env w ->
  settledInit env (updateCandlestickChart env data_points variant w).2 /\
  exists new,
    calls (updateCandlestickChart env data_points variant w).2 = calls w ++ new /\
    Forall (fun e => isCreateChart e.1 = false) new.
Proof.
  intros Hs.
  destruct (chartFallbackMode w || negb (isChartLibraryAvailable env)) eqn:Hgate.
  { rewrite update_gate by done.
    destruct (renderFallbackChart_keeps env data_points variant w) as (Hc & Hch & Hf).
    split.
    - intros Hnone. rewrite Hch in Hnone.
      apply orb_true_iff in Hgate as [Hfb|Hlib].
      + left. by apply Hf.
      + right. right. by apply negb_true_iff.
    - exists []. rewrite Hc, app_nil_r. split; [done|constructor]. }
  apply orb_false_iff in Hgate as Hgate'. destruct Hgate' as [Hfb Hlib].
  apply negb_false_iff in Hlib.
  destruct (chart w) as [c|] eqn:Hchart.
  - rewrite (update_live env data_points variant w c) by done.
    destruct (appends_tryCatch (fun c => isCreateChart c = false)
                (renderChart env data_points variant)
                (renderFallbackChart env data_points variant)
                (renderChart_never_creates env data_points variant)
                (appends_pure _ _ (fun w0 =>
                   proj1 (renderFallbackChart_keeps env data_points variant w0))) w)
      as (new & Hc & Hp).
    split; [|by exists new].
    intros Hnone. exfalso. revert Hnone. unfold tryCatch.
    destruct (orderly_renderChart env data_points variant w)
      as (n & _ & Hch & _).
    destruct (renderChart env data_points variant w) as [[e|[]] w1]; simpl in *.
    + destruct (renderFallbackChart_keeps env data_points variant w1) as (_ & Hk & _).
      rewrite Hk, Hch, Hchart. done.
    + by rewrite Hch, Hchart.
  - destruct (Hs Hchart) as [H|[Hcont|H]]; [congruence| |congruence].
    rewrite update_uninitialized by done. rewrite initChart_fresh by done.
    rewrite Hcont. simpl. rewrite renderFallbackChart_no_container by done.
    simpl. split; [done|]. exists []. rewrite app_nil_r. split; [done|constructor].
Qed.

(** X14: the chart is created at most once in a session, and by [init]:
    [init] makes at most one call into the library, and no data update,
    whatever its payload and whichever calls throw, calls [createChart]
    again. *)
Theorem chart_created_once (env : Env)
    (updates : list (list Candles.Point * string)) :
  (length (calls (init env)) <= 1)%nat /\
  exists new,
    calls (session env updates (init env)) = calls (init env) ++ new /\
    Forall (fun e => isCreateChart e.1 = false) new.
Proof.
  split.
  - unfold init. rewrite initChart_fresh by done.
    destruct (containerPresent env), (isChartLibraryAvailable env),
      (throwsAt env (length (calls initial))); simpl; lia.
  - assert (settledInit env (init env)) as Hinit.
    { unfold init, settledInit. rewrite initChart_fresh by done.
      destruct (containerPresent env) eqn:Hc; simpl; [|auto].
      destruct (isChartLibraryAvailable env) eqn:Hl; simpl; [|auto].
      destruct (throwsAt env 0); simpl; [auto|].
      intros Hnone. discriminate Hnone. }
    revert Hinit. generalize (init env). intros w Hw.
    revert w Hw. induction updates as [|[d v] rest IH]; intros w Hw; simpl.
    + exists []. rewrite app_nil_r. split; [done|constructor].
    + destruct (update_never_creates env d v w Hw) as (Hw1 & n1 & Hc1 & Hp1).
      destruct (IH _ Hw1) as (n2 & Hc2 & Hp2).
      exists (n1 ++ n2). rewrite Hc2, Hc1, app_assoc. split; [done|].
      by apply Forall_app.
Qed.

(** ** Series do not pile up *)

Definition isAddSeries (c : ChartCall) : bool :=
  match c with
  | AddCandlestickSeries _ => true
  | _ => false
  end.

Definition isRemoveSeries (c : ChartCall) : bool :=
  match c with
  | RemoveSeries _ => true
  | _ => false
  end.

Definition countCalls (P : ChartCall -> bool) (entries : list (ChartCall * bool)) : nat :=
  length (filter (fun e => P e.1 = true) entries).

Lemma countCalls_app (P : ChartCall -> bool) (l1 l2 : list (ChartCall * bool)) :
  countCalls P (l1 ++ l2) = (countCalls P l1 + countCalls P l2)%nat.
Proof. unfold countCalls. by rewrite filter_app, length_app. Qed.

(** Every series added to the chart and not removed from it since is
    listed in [state.chartSeries]. *)
Definition balanced (w : World) : Prop :=
  countCalls isAddSeries (calls w) =
    (countCalls isRemoveSeries (calls w) + length (chartSeries w))%nat.

(** A computation that keeps the balance and lists at most [k] more
    series. *)
Definition steady (k : nat) {A : Type} (m : M A) : Prop :=
  forall w, balanced w ->
    balanced (m w).2 /\
    (length (chartSeries (m w).2) <= length (chartSeries w) + k)%nat.

Lemma steady_pure {A : Type} (m : M A) :
  (forall w, calls (m w).2 = calls w /\ chartSeries (m w).2 = chartSeries w) ->
  steady 0 m.
Proof.
  intros H w Hb. destruct (H w) as [Hc Hs]. unfold balanced.
  rewrite Hc, Hs. split; [done|lia].
Qed.

Lemma steady_weaken (k k' : nat) {A : Type} (m : M A) :
  (k <= k')%nat -> steady k m -> steady k' m.
Proof. intros Hk Hm w Hb. destruct (Hm w Hb). split; [done|lia]. Qed.

Lemma steady_bind (k1 k2 : nat) {A B : Type} (m : M A) (f : A -> M B) :
  steady k1 m -> (forall a, steady k2 (f a)) -> steady (k1 + k2) (bind m f).
Proof.
  intros Hm Hf w Hb. destruct (Hm w Hb) as [Hb1 Hl1].
  unfold bind. destruct (m w) as [[e|a] w1]; simpl in *; [split; [done|lia]|].
  destruct (Hf a w1 Hb1) as [Hb2 Hl2]. split; [done|lia].
Qed.

Lemma steady_forEach {A : Type} (l : list A) (f : A -> M unit) :
  (forall a, steady 1 (f a)) -> steady (length l) (forEach l f).
Proof.
  intros Hf. induction l as [|a rest IH]; simpl.
  - by apply steady_pure.
  - apply (steady_bind 1 (length rest)); [apply Hf|]. by intros _.
Qed.

Lemma countCalls_cons (P : ChartCall -> bool) (c : ChartCall) (threw : bool)
    (l : list (ChartCall * bool)) :
  countCalls P ((c, threw) :: l) =
    ((if P c then 1 else 0) + countCalls P l)%nat.
Proof.
  unfold countCalls. destruct (P c) eqn:Hc.
  - by rewrite filter_cons_True.
  - rewrite filter_cons_False; [done|]. simpl. congruence.
Qed.

Lemma countCalls_nil (P : ChartCall -> bool) : countCalls P [] = 0%nat.
Proof. done. Qed.

(** A call that neither adds nor removes a series. *)
Lemma steady_libraryCall (env : Env) (c : ChartCall) :
  isAddSeries c = false -> isRemoveSeries c = false ->
  steady 0 (libraryCall env c).
Proof.
  intros Ha Hr w Hb. unfold libraryCall, balanced in *.
  destruct (throwsAt env (length (calls w))); cbn [snd calls chartSeries logCall];
    rewrite !countCalls_app, !countCalls_cons, !countCalls_nil, Ha, Hr;
    split; lia.
Qed.

Lemma steady_attachSeries (env : Env) (group : string * list Candles.Point) :
  (forall n, throwsAt env n = false) -> steady 1 (attachSeries env group).
Proof.
  intros Hok w Hb. destruct group as [k [|p points]].
  - simpl. split; [done|lia].
  - destruct (attachSeries_ok env k p points w Hok) as [title ->].
    unfold balanced in *.
    cbn [snd calls chartSeries logCall pushSeries setChartSeries].
    rewrite !countCalls_app, !countCalls_cons, !countCalls_nil, !length_app.
    cbn [isAddSeries isRemoveSeries length]. split; lia.
Qed.

(** The removal loop, when no call throws: one [removeSeries] for each
    listed series, in order, and nothing else. *)
Lemma removeLoop_log (env : Env) (l : list nat) :
  (forall n, throwsAt env n = false) ->
  forall w,
    forEach l (fun series =>
                 tryCatch (let* _ := libraryCall env (RemoveSeries series) in ret tt)
                          (ret tt)) w =
    (inr tt,
     {| chart := chart w; chartSeries := chartSeries w;
        chartFallbackMode := chartFallbackMode w;
        calls := calls w ++ ((fun series => (RemoveSeries series, false)) <$> l);
        mainChart := mainChart w |}).
Proof.
  intros Hok. induction l as [|s rest IH]; intros w.
  - simpl. unfold ret. rewrite app_nil_r. by destruct w.
  - rewrite forEach_cons. unfold tryCatch, bind, libraryCall, ret.
    rewrite Hok. rewrite IH. cbn [calls chart chartSeries chartFallbackMode
                                  mainChart logCall fmap list_fmap].
    by rewrite <- app_assoc.
Qed.

Lemma countCalls_removals (l : list nat) :
  countCalls isRemoveSeries ((fun series => (RemoveSeries series, false)) <$> l) =
    length l /\
  countCalls isAddSeries ((fun series => (RemoveSeries series, false)) <$> l) = 0%nat.
Proof.
  induction l as [|s rest [IH1 IH2]]; [done|].
  rewrite fmap_cons, !countCalls_cons, IH1, IH2. done.
Qed.

Lemma bind_lift {A B : Type} (r : Exn + A) (f : A -> M B) (w : World) :
  bind (lift r) f w =
    match r with
    | inl e => (inl e, w)
    | inr a => f a w
    end.
Proof. by destruct r. Qed.

Lemma steady_renderAll (env : Env) (data_points : list Candles.Point) :
  (forall n, throwsAt env n = false) -> steady 3 (renderAll env data_points).
Proof.
  intros Hok w Hb. unfold renderAll. rewrite bind_lift.
  destruct (Candles.groupByVariant data_points) as [e|groups] eqn:Hg.
  - simpl. split; [done|lia].
  - assert (length groups = 3%nat) as Hlen
      by (by apply Candles.groupByVariant_inr in Hg as ->).
    rewrite <- Hlen, <- (Nat.add_0_r (length groups)).
    refine (steady_bind (length groups) 0 _ _ _ _ w Hb).
    + apply steady_forEach. intros group. by apply steady_attachSeries.
    + intros _. apply (steady_bind 0 0); [by apply steady_libraryCall|].
      intros _. by apply steady_pure.
Qed.

Lemma steady_renderSingle (env : Env) (data_points : list Candles.Point) :
  (forall n, throwsAt env n = false) -> steady 1 (renderSingle env data_points).
Proof.
  intros Hok w Hb. unfold renderSingle, balanced in *.
  unfold bind, libraryCall, modify, updateChartLegend, ret, throw.
  rewrite Hok.
  destruct (Candles.singleCandles data_points) as [|c cs];
    cbn [calls chartSeries logCall pushSeries setChartSeries];
    rewrite ?Hok; cbn [calls chartSeries logCall pushSeries setChartSeries];
    rewrite ?Hok; destruct (legendPresent env);
    cbn [snd calls chartSeries logCall pushSeries setChartSeries];
    rewrite ?countCalls_app, ?countCalls_cons, ?countCalls_nil, ?length_app;
    cbn [isAddSeries isRemoveSeries length]; split; lia.
Qed.

Lemma renderChart_no_throw (env : Env) (data_points : list Candles.Point)
    (variant : string) (w : World) :
  (forall n, throwsAt env n = false) ->
  renderChart env data_points variant w =
    (if String.eqb variant "all"
     then renderAll env data_points
     else renderSingle env data_points)
      {| chart := chart w; chartSeries := [];
         chartFallbackMode := chartFallbackMode w;
         calls := calls w ++
                  ((fun series => (RemoveSeries series, false)) <$> chartSeries w);
         mainChart := mainChart w |}.
Proof.
  intros Hok. unfold renderChart, removeAllSeries.
  unfold bind at 1. unfold bind at 1. unfold get.
  by rewrite (removeLoop_log env (chartSeries w) Hok w).
Qed.

Lemma renderChart_balanced (env : Env) (data_points : list Candles.Point)
    (variant : string) (w : World) :
  (forall n, throwsAt env n = false) ->
  balanced w ->
  balanced (renderChart env data_points variant w).2 /\
  (length (chartSeries (renderChart env data_points variant w).2) <= 3)%nat.
Proof.
  intros Hok Hb. rewrite renderChart_no_throw by done.
  match goal with |- context [?f ?w0] =>
    match w0 with {| chart := _ |} => set (w2 := w0) end end.
  assert (balanced w2) as Hb2.
  { unfold balanced in *. subst w2. cbn [calls chartSeries].
    rewrite !countCalls_app.
    destruct (countCalls_removals (chartSeries w)) as [-> ->]. simpl. lia. }
  assert (steady 3 (if String.eqb variant "all"
                    then renderAll env data_points
                    else renderSingle env data_points)) as Hst.
  { destruct (String.eqb variant "all"); [by apply steady_renderAll|].
    apply (steady_weaken 1); [lia|by apply steady_renderSingle]. }
  destruct (Hst w2 Hb2) as [H1 H2]. split; [exact H1|].
  subst w2. simpl in H2. exact H2.
Qed.

Lemma renderFallbackChart_series (env : Env) (data_points : list Candles.Point)
    (variant : string) (w : World) :
  chartSeries (renderFallbackChart env data_points variant w).2 = chartSeries w.
Proof.
  unfold renderFallbackChart, bind, modify, lift.
  destruct (containerPresent env); simpl; [|done].
  by destruct (groupByDate [] data_points).
Qed.

Lemma update_balanced (env : Env) (data_points : list Candles.Point)
    (variant : string) (w : World) :
  (forall n, throwsAt env n = false) ->
  balanced w /\ (length (chartSeries w) <= 3)%nat ->
  balanced (updateCandlestickChart env data_points variant w).2 /\
  (length (chartSeries (updateCandlestickChart env data_points variant w).2) <= 3)%nat.
Proof.
  intros Hok [Hb Hl].
  assert (forall w0, balanced w0 /\ (length (chartSeries w0) <= 3)%nat ->
            balanced (renderFallbackChart env data_points variant w0).2 /\
            (length (chartSeries (renderFallbackChart env data_points variant w0).2)
               <= 3)%nat) as Hfallback.
  { intros w0 [Hb0 Hl0]. unfold balanced in *.
    rewrite renderFallbackChart_series.
    by destruct (renderFallbackChart_keeps env data_points variant w0) as (-> & _). }
  assert (forall w0, balanced w0 ->
            balanced (tryCatch (renderChart env data_points variant)
                        (renderFallbackChart env data_points variant) w0).2 /\
            (length (chartSeries
                       (tryCatch (renderChart env data_points variant)
                          (renderFallbackChart env data_points variant) w0).2)
               <= 3)%nat) as Htry.
  { intros w0 Hb0. unfold tryCatch.
    pose proof (renderChart_balanced env data_points variant w0 Hok Hb0) as H.
    destruct (renderChart env data_points variant w0) as [[e|[]] w1]; simpl in *;
      [by apply Hfallback|done]. }
  destruct (chartFallbackMode w || negb (isChartLibraryAvailable env)) eqn:Hgate.
  { rewrite update_gate by done. by apply Hfallback. }
  destruct (chart w) as [c|] eqn:Hchart.
  { rewrite (update_live env data_points variant w c) by done. by apply Htry. }
  rewrite update_uninitialized by done. rewrite initChart_fresh by done.
  rewrite Hok.
  assert (forall w0, calls w0 = calls w -> chartSeries w0 = chartSeries w ->
            balanced w0 /\ (length (chartSeries w0) <= 3)%nat) as Hsame.
  { intros w0 Hc Hs. unfold balanced in *. by rewrite Hc, Hs. }
  destruct (containerPresent env); simpl; [|by apply Hfallback].
  destruct (isChartLibraryAvailable env); simpl.
  - apply Htry. unfold balanced in *.
    cbn [calls chartSeries setChartFallbackMode setChart afterCreateChart logCall
         setMainChart].
    rewrite !countCalls_app, !countCalls_cons, !countCalls_nil. simpl. lia.
  - apply Hfallback. by apply Hsame.
Qed.

(** X15: series do not pile up on the chart. In a session on a page where
    no call into the chart library throws, after [init] and after every
    data update the series added to the chart and not removed since are
    exactly as many as [state.chartSeries] lists, and these are at most
    three: every update removes the series of the one before. *)
Theorem series_do_not_pile_up (env : Env)
    (updates : list (list Candles.Point * string)) :
  (forall n, throwsAt env n = false) ->
  let w := session env updates (init env) in
  countCalls isAddSeries (calls w) =
    (countCalls isRemoveSeries (calls w) + length (chartSeries w))%nat /\
  (length (chartSeries w) <= 3)%nat.
Proof.
  intros Hok.
  assert (balanced (init env) /\ (length (chartSeries (init env)) <= 3)%nat) as Hinit.
  { unfold init, balanced. rewrite initChart_fresh by done. rewrite Hok.
    destruct (containerPresent env), (isChartLibraryAvailable env); simpl;
      split; try done; lia. }
  revert Hinit. generalize (init env). intros w0 Hw0. simpl.
  revert w0 Hw0. induction updates as [|[d v] rest IH]; intros w0 Hw0; [done|].
  simpl. apply IH. by apply update_balanced.
Qed.

Lemma series_do_not_pile_up_witness :
  let w := session liveEnv [(Candles.examplePoints, "all");
                            (Candles.examplePoints, "jumbo");
                            (Candles.examplePoints, "all")] (init liveEnv) in
  countCalls isAddSeries (calls w) =
    (countCalls isRemoveSeries (calls w) + length (chartSeries w))%nat /\
  (length (chartSeries w) <= 3)%nat.
Proof.
  apply (series_do_not_pile_up liveEnv
           [(Candles.examplePoints, "all"); (Candles.examplePoints, "jumbo");
            (Candles.examplePoints, "all")]).
  reflexivity.
Defined.

End Chart.

(* ====================================================================== *)
(** * The service worker: the [fetch] listener of [sw.js] *)
(* ====================================================================== *)
Module ServiceWorker.

(** The parts of a request the listener looks at; [pathname] is
    [new URL(request.url).pathname] and also stands for the request as a
    cache key. *)
Record Request : Type := { method : string; pathname : string }.

Record Response : Type := {
  status : Z;
  headers : list (string * string);
  body : json
}.

(** [response.ok] *)
Definition ok (response : Response) : bool :=
  (200 <=? status response) && (status response <=? 299).

(** What the page gets for its request. *)
Inductive Handled : Type :=
| NotIntercepted                 (* the listener returns without respondWith *)
| RespondWith (response : Response)
| RespondWithError.              (* the promise given to respondWith rejects *)

(** [new Response(JSON.stringify({ success: false, error: 'You are offline' }),
    { headers: { 'Content-Type': 'application/json' } })] *)
Definition offlineResponse : Response :=
  {| status := 200;
     headers := [("Content-Type", "application/json")];
     body := JObject [("success", JBool false);
                      ("error", JString "You are offline")] |}.

(** [cache.put] of a response that is [ok], in the background. *)
Definition putIfOk (request : Request) (response : Response)
    (cache : gmap string Response) : gmap string Response :=
  if ok response then <[pathname request := response]> cache else cache.

(** The [fetch] listener. [network request] is what [fetch(request)]
    settles with, [None] when it rejects; [cache] is what [caches.match]
    searches. The result is the answer to the page and the cache once the
    background work is done. *)
Definition onFetch (network : Request -> option Response)
    (cache : gmap string Response) (request : Request)
    : Handled * gmap string Response :=
  if negb (String.eqb (method request) "GET") then (NotIntercepted, cache)
  else if String.prefix "/api/" (pathname request) then
    match network request with
    | Some response => (RespondWith response, cache)
    | None => (RespondWith offlineResponse, cache)
    end
  else
    match cache !! pathname request with
    | Some cachedResponse =>
        (RespondWith cachedResponse,
         match network request with
         | Some response => putIfOk request response cache
         | None => cache
         end)
    | None =>
        match network request with
        | Some response => (RespondWith response, putIfOk request response cache)
        | None => (RespondWithError, cache)
        end
    end.

(** A network that is down. *)
Definition offline : Request -> option Response := fun _ => None.

(** The body C3 names. *)
Definition claimedBody : json :=
  JObject [("success", JBool false); ("error", JString "offline")].

(** The claim of C3 for one request. *)
Definition offlineClaim (request : Request) : Prop :=
  forall cache, exists response,
    (onFetch offline cache request).1 = RespondWith response /\
    body response = claimedBody.

(** The error text of the synthesized body is [You are offline]. *)
Lemma offline_body_differs :
  ~ offlineClaim {| method := "GET"; pathname := "/api/summary" |}.
Proof.
  intros H. destruct (H ∅) as (response & Hresp & Hbody).
  vm_compute in Hresp. injection Hresp as <-. discriminate Hbody.
Qed.

(** C3 (amended): when [fetch] fails for an intercepted GET request whose
    path starts with [/api/], the page receives a synthesized response
    with status 200, content type [application/json] and the body
    [{success: false, error: "You are offline"}], not the transport
    failure; the cache is left alone. *)
Theorem api_offline_response (network : Request -> option Response)
    (cache : gmap string Response) (request : Request) :
  method request = "GET" ->
  String.prefix "/api/" (pathname request) = true ->
  network request = None ->
  onFetch network cache request = (RespondWith offlineResponse, cache) /\
  body offlineResponse =
    JObject [("success", JBool false); ("error", JString "You are offline")].
Proof.
  intros Hm Hp Hn. unfold onFetch. rewrite Hm, Hp, Hn. done.
Qed.

Lemma api_offline_response_witness :
  onFetch offline ∅ {| method := "GET"; pathname := "/api/summary" |} =
    (RespondWith offlineResponse, ∅) /\
  body offlineResponse =
    JObject [("success", JBool false); ("error", JString "You are offline")].
Proof.
  apply (api_offline_response offline ∅
           {| method := "GET"; pathname := "/api/summary" |}); reflexivity.
Defined.

(** While the network is up, an API request is answered by the network
    and never from the cache. *)
Lemma api_online_response (network : Request -> option Response)
    (cache : gmap string Response) (request : Request) (response : Response) :
  method request = "GET" ->
  String.prefix "/api/" (pathname request) = true ->
  network request = Some response ->
  onFetch network cache request = (RespondWith response, cache).
Proof. intros Hm Hp Hn. unfold onFetch. by rewrite Hm, Hp, Hn. Qed.


(** ** Installation and activation *)

Definition CACHE_NAME : string := "bowman-tracker-v2".

Definition STATIC_ASSETS : list string :=
  ["/"; "/css/styles.css"; "/css/components.css"; "/css/utilities.css";
   "/js/app.js"; "/js/vendor/lightweight-charts.min.js"; "/manifest.json";
   "/icons/icon-192.png"; "/icons/icon-512.png"].

(** The request [cache.addAll] makes for a path. *)
Definition assetRequest (path : string) : Request :=
  {| method := "GET"; pathname := path |}.

(** The fetches of [cache.addAll(urls)]: all the responses, or nothing if
    one fetch fails or one response is not [ok]. *)
Fixpoint fetchAll (network : Request -> option Response) (urls : list string)
    : option (list (string * Response)) :=
  match urls with
  | [] => Some []
  | url :: rest =>
      match network (assetRequest url) with
      | Some response =>
          if ok response
          then cons (url, response) <$> fetchAll network rest
          else None
      | None => None
      end
  end.

(** [cache.addAll(urls)]: the cache with all the responses stored, or
    [None] when it rejects, and then nothing has been stored. *)
Definition addAll (network : Request -> option Response) (urls : list string)
    (cache : gmap string Response) : option (gmap string Response) :=
  (fun responses => foldl (fun c entry => <[entry.1 := entry.2]> c) cache responses)
    <$> fetchAll network urls.

(** The cache storage of the origin: the named caches. The cache named
    [CACHE_NAME] is the one the listeners open. *)
Definition active (storage : gmap string (gmap string Response))
    : gmap string Response :=
  default ∅ (storage !! CACHE_NAME).

(** The [install] listener: whether the promise given to [waitUntil]
    fulfils, and the storage afterwards. [caches.open] creates the cache
    if there is none. *)
Definition install (network : Request -> option Response)
    (storage : gmap string (gmap string Response))
    : bool * gmap string (gmap string Response) :=
  match addAll network STATIC_ASSETS (active storage) with
  | Some cache => (true, <[CACHE_NAME := cache]> storage)
  | None => (false, <[CACHE_NAME := active storage]> storage)
  end.


(** A run of the [fetch] listener over requests, each with the network
    of its moment; the cache after the last. *)
Definition serve (requests : list (Request * (Request -> option Response)))
    (cache : gmap string Response) : gmap string Response :=
  foldl (fun c entry => (onFetch entry.2 c entry.1).2) cache requests.

Lemma foldl_insert_lookup (responses : list (string * Response)) :
  forall (cache : gmap string Response) (url : string),
    foldl (fun c entry => <[entry.1 := entry.2]> c) cache responses !! url =
      match last (filter (fun entry => entry.1 = url) responses) with
      | Some entry => Some entry.2
      | None => cache !! url
      end.
Proof.
  induction responses as [|[u r] rest IH]; intros cache url; [done|].
  cbn [foldl]. rewrite IH, filter_cons. simpl.
  destruct (decide (u = url)) as [->|Hne].
  - destruct (filter (fun entry => entry.1 = url) rest) as [|e es] eqn:Hf.
    + simpl. by rewrite lookup_insert_eq.
    + rewrite last_cons_cons.
      destruct (last (e :: es)) eqn:Hl; [done|]. by apply last_None in Hl.
  - destruct (last (filter (fun entry => entry.1 = url) rest)); [done|].
    by apply lookup_insert_ne.
Qed.

Lemma fetchAll_Some (network : Request -> option Response) (urls : list string) :
  forall responses,
    fetchAll network urls = Some responses ->
    responses.*1 = urls /\
    Forall (fun entry => network (assetRequest entry.1) = Some entry.2 /\
                         ok entry.2 = true) responses.
Proof.
  induction urls as [|url rest IH]; intros responses H; simpl in H.
  - injection H as <-. split; [done|constructor].
  - destruct (network (assetRequest url)) as [r|] eqn:Hn; [|done].
    destruct (ok r) eqn:Hok; [|done].
    destruct (fetchAll network rest) as [rs|]; [|done].
    injection H as <-. destruct (IH rs eq_refl) as [H1 H2].
    split; [simpl; by f_equal|]. by constructor.
Qed.

Lemma fetchAll_None (network : Request -> option Response) (urls : list string) :
  fetchAll network urls = None ->
  exists url, url ∈ urls /\
    match network (assetRequest url) with
    | Some response => ok response = false
    | None => True
    end.
Proof.
  induction urls as [|url rest IH]; intros H; simpl in H; [done|].
  destruct (network (assetRequest url)) as [r|] eqn:Hn.
  - destruct (ok r) eqn:Hok.
    + destruct (fetchAll network rest) as [rs|]; [done|].
      destruct (IH eq_refl) as (u & Hu & H'). exists u.
      split; [by apply list_elem_of_further|done].
    + exists url. rewrite Hn. split; [apply list_elem_of_here|done].
  - exists url. rewrite Hn. split; [apply list_elem_of_here|done].
Qed.

Lemma addAll_lookup (network : Request -> option Response) (urls : list string)
    (cache cache' : gmap string Response) (url : string) :
  addAll network urls cache = Some cache' ->
  url ∈ urls ->
  exists response,
    cache' !! url = Some response /\ ok response = true /\
    network (assetRequest url) = Some response.
Proof.
  unfold addAll. intros H Hin.
  destruct (fetchAll network urls) as [responses|] eqn:Hf; [|done].
  injection H as <-. destruct (fetchAll_Some _ _ _ Hf) as [Hkeys Hall].
  rewrite foldl_insert_lookup.
  assert (exists r, (url, r) ∈ responses) as [r Hr].
  { rewrite <- Hkeys in Hin. apply list_elem_of_fmap in Hin as ([u r] & -> & Hin).
    by exists r. }
  assert ((url, r) ∈ filter (fun entry => entry.1 = url) responses) as Hfr
    by (by apply list_elem_of_filter).
  destruct (last (filter (fun entry => entry.1 = url) responses)) as [[u r']|] eqn:Hl.
  - apply last_Some_elem_of in Hl. apply list_elem_of_filter in Hl as [Hu Hl].
    simpl in Hu. subst u. rewrite Forall_forall in Hall.
    destruct (Hall _ Hl) as [Hn Hok]. by exists r'.
  - apply last_None in Hl. rewrite Hl in Hfr. by apply elem_of_nil in Hfr.
Qed.


(** X16: installation is all or nothing. If the [install] listener
    succeeds, every static asset has been fetched with an [ok] response
    and that response is in the cache named [CACHE_NAME]; if it fails,
    some asset could not be fetched or came back not [ok], and the cache
    holds what it held before: no asset of this installation is stored. *)
Theorem install_all_or_nothing (network : Request -> option Response)
    (storage : gmap string (gmap string Response)) :
  let '(installed, storage') := install network storage in
  (installed = true ->
   forall path, path ∈ STATIC_ASSETS ->
     exists response,
       network (assetRequest path) = Some response /\ ok response = true /\
       active storage' !! path = Some response) /\
  (installed = false ->
   active storage' = active storage /\
   exists path, path ∈ STATIC_ASSETS /\
     match network (assetRequest path) with
     | Some response => ok response = false
     | None => True
     end).
Proof.
  unfold install.
  destruct (addAll network STATIC_ASSETS (active storage)) as [cache|] eqn:Hadd.
  - split; [|done]. intros _ path Hpath.
    destruct (addAll_lookup _ _ _ _ path Hadd Hpath) as (r & H1 & H2 & H3).
    exists r. unfold active at 1. rewrite lookup_insert_eq. done.
  - split; [done|]. intros _. split.
    + unfold active at 1. by rewrite lookup_insert_eq.
    + apply fetchAll_None. unfold addAll in Hadd.
      by destruct (fetchAll network STATIC_ASSETS).
Qed.



(** A network that serves every path with a page. *)
Definition allOk : Request -> option Response :=
  fun request =>
    Some {| status := 200; headers := []; body := JString (pathname request) |}.


(** ** What the cache holds *)

(** The cache holds [ok] responses only, and none for an API path. *)
Definition cleanCache (cache : gmap string Response) : Prop :=
  (forall path response, cache !! path = Some response -> ok response = true) /\
  (forall path, String.prefix "/api/" path = true -> cache !! path = None).

Lemma onFetch_cleanCache (network : Request -> option Response)
    (cache : gmap string Response) (request : Request) :
  cleanCache cache ->
  cleanCache (onFetch network cache request).2 /\
  (forall path, is_Some (cache !! path) ->
                is_Some ((onFetch network cache request).2 !! path)).
Proof.
  intros [Hok Hapi]. unfold onFetch.
  destruct (negb (String.eqb (method request) "GET")); [by split|].
  destruct (String.prefix "/api/" (pathname request)) eqn:Hp.
  { destruct (network request); by split. }
  assert (forall response,
            cleanCache (putIfOk request response cache) /\
            (forall path, is_Some (cache !! path) ->
                          is_Some (putIfOk request response cache !! path))) as Hput.
  { intros r. unfold putIfOk. destruct (ok r) eqn:Hr; [|by split].
    split; [split|].
    - intros path r' Hl. destruct (decide (pathname request = path)) as [<-|Hne].
      + rewrite lookup_insert_eq in Hl. by injection Hl as <-.
      + rewrite lookup_insert_ne in Hl by done. by eapply Hok.
    - intros path Hpath. rewrite lookup_insert_ne; [by apply Hapi|].
      intros <-. congruence.
    - intros path Hs. destruct (decide (pathname request = path)) as [<-|Hne].
      + rewrite lookup_insert_eq. eauto.
      + by rewrite lookup_insert_ne. }
  destruct (cache !! pathname request); destruct (network request);
    simpl; try (by split); apply Hput.
Qed.

(** X18: what the service worker keeps. Over any sequence of requests,
    whatever the network does, a cache that holds only [ok] responses and
    nothing for an API path stays so: API responses and the synthesized
    offline response are never stored, no failed response replaces a
    stored asset, and no stored asset is ever dropped. *)
Theorem cache_stays_clean (requests : list (Request * (Request -> option Response)))
    (cache : gmap string Response) :
  cleanCache cache ->
  cleanCache (serve requests cache) /\
  (forall path, is_Some (cache !! path) -> is_Some (serve requests cache !! path)).
Proof.
  revert cache. induction requests as [|[request network] rest IH];
    intros cache Hclean; [by split|].
  simpl. destruct (onFetch_cleanCache network cache request Hclean) as [H1 H2].
  destruct (IH _ H1) as [H3 H4]. split; [done|]. intros path Hs. by apply H4, H2.
Qed.

Lemma cache_stays_clean_witness :
  let requests :=
    [({| method := "GET"; pathname := "/api/summary" |}, allOk);
     ({| method := "GET"; pathname := "/js/app.js" |}, allOk);
     ({| method := "POST"; pathname := "/api/fetch" |}, offline)] in
  cleanCache (serve requests ∅) /\
  (forall path, is_Some ((∅ : gmap string Response) !! path) ->
                is_Some (serve requests ∅ !! path)).
Proof.
  apply (cache_stays_clean
           [({| method := "GET"; pathname := "/api/summary" |}, allOk);
            ({| method := "GET"; pathname := "/js/app.js" |}, allOk);
            ({| method := "POST"; pathname := "/api/fetch" |}, offline)] ∅).
  split; intros; by rewrite ?lookup_empty in *.
Defined.



End ServiceWorker.

(* ====================================================================== *)
(** * [fetchAPI] behind the service worker *)
(* ====================================================================== *)
Module Offline.

(** The page registers [sw.js] ([registerServiceWorker]); once it
    controls the page, the [fetch] of [fetchWithTimeout] goes through its
    listener. *)

(** [response.status], and [response.json()] of the body. *)
Definition asAttempt (response : ServiceWorker.Response) : Fetch.Attempt :=
  Fetch.Response (ServiceWorker.status response)
                 (Some (ServiceWorker.body response)).

(** What an attempt of [fetchAPI] meets, [request] being the request its
    [fetch] sends, when no attempt is aborted by the timeout. *)
Definition throughServiceWorker
    (network : ServiceWorker.Request -> option ServiceWorker.Response)
    (cache : gmap string ServiceWorker.Response)
    (request : ServiceWorker.Request) : Fetch.Attempt :=
  match (ServiceWorker.onFetch network cache request).1 with
  | ServiceWorker.RespondWith response => asAttempt response
  | ServiceWorker.RespondWithError => Fetch.NetworkFailure
  | ServiceWorker.NotIntercepted =>
      match network request with
      | Some response => asAttempt response
      | None => Fetch.NetworkFailure
      end
  end.

Definition offlinePayload : json :=
  ServiceWorker.body ServiceWorker.offlineResponse.

Lemma request_resolves_at_once (net : nat -> Fetch.Attempt) (retries : nat)
    (status : Z) (d : json) :
  net 0%nat = Fetch.Response status (Some d) ->
  Fetch.ok status = true ->
  Fetch.request net retries = ([Fetch.NetCall 0], Fetch.Resolved d).
Proof.
  intros Hnet Hok. unfold Fetch.request. simpl.
  unfold Fetch.tryAttempt. rewrite Hnet. simpl. by rewrite Hok.
Qed.

(** X20: behind the service worker an offline API call is no failure for
    [fetchAPI]. With the network down, the first attempt of a request
    whose [fetch] is a GET under [/api/] receives the synthesized
    response, which is [ok]: the request resolves with
    [{success: false, error: "You are offline"}] after a single network
    call, without retry or backoff; the payload is cached, so every call
    for the endpoint without bypass in the following [cacheTimeout] ms
    gets it from the cache, whatever the network has become. *)
Theorem offline_payload_is_cached (s : Fetch.State) (h : nat) (p : Fetch.Promise)
    (request : ServiceWorker.Request)
    (cache : gmap string ServiceWorker.Response) (t now : Z) (retries : nat) :
  ServiceWorker.method request = "GET" ->
  String.prefix "/api/" (ServiceWorker.pathname request) = true ->
  Fetch.promises s !! h = Some p ->
  Fetch.settled p = None ->
  now - t < Fetch.cacheTimeout ->
  let net := fun _ : nat =>
    throughServiceWorker ServiceWorker.offline cache request in
  let s2 := Fetch.finalize h (Fetch.settle h t net s) in
  Fetch.request net (Fetch.retries_of p) =
    ([Fetch.NetCall 0], Fetch.Resolved offlinePayload) /\
  Fetch.fetchAPI now (Fetch.key p) false retries s2 =
    (Fetch.FromCache offlinePayload, s2).
Proof.
  intros Hget Hapi Hp Hs Hage net s2.
  assert (Fetch.request net (Fetch.retries_of p) =
            ([Fetch.NetCall 0], Fetch.Resolved offlinePayload)) as Hreq.
  { apply (request_resolves_at_once _ _ 200); [|done].
    unfold net, throughServiceWorker, ServiceWorker.onFetch.
    by rewrite Hget, Hapi. }
  split; [done|].
  apply (Fetch.fetchAPI_fresh s2 now (Fetch.key p) retries
           {| Fetch.data := offlinePayload; Fetch.timestamp := t |}); [|done].
  apply Fetch.settle_resolved_cached; try done. by rewrite Hreq.
Qed.

Lemma offline_payload_is_cached_witness :
  let s := (Fetch.fetchAPI 0 "/summary" false Fetch.MAX_RETRIES Fetch.initial).2 in
  let request := {| ServiceWorker.method := "GET";
                    ServiceWorker.pathname := "/api/summary" |} in
  let net := fun _ : nat => throughServiceWorker ServiceWorker.offline ∅ request in
  let s2 := Fetch.finalize 0 (Fetch.settle 0 10 net s) in
  Fetch.request net Fetch.MAX_RETRIES =
    ([Fetch.NetCall 0], Fetch.Resolved offlinePayload) /\
  Fetch.fetchAPI 20000 "/summary" false Fetch.MAX_RETRIES s2 =
    (Fetch.FromCache offlinePayload, s2).
Proof.
  apply (offline_payload_is_cached
           (Fetch.fetchAPI 0 "/summary" false Fetch.MAX_RETRIES Fetch.initial).2 0
           {| Fetch.key := "/summary"; Fetch.retries_of := Fetch.MAX_RETRIES;
              Fetch.settled := None; Fetch.finalized := false |}
           {| ServiceWorker.method := "GET";
              ServiceWorker.pathname := "/api/summary" |}
           ∅ 10 20000 Fetch.MAX_RETRIES); reflexivity.
Defined.

End Offline.

(* ====================================================================== *)
(** * The sales table: [truncateText], [formatEbayUrl], [renderSalesTable],
      [updatePagination] and the pagination handlers; [throttle] *)
(* ====================================================================== *)
Module Table.

Import Stdlib.Strings.Ascii.

(** ** Text helpers *)



(** [s.includes(sub)] *)
Fixpoint includes (sub s : string) : bool :=
  if String.prefix sub s then true
  else match s with
       | EmptyString => false
       | String _ rest => includes sub rest
       end.

(** [formatEbayUrl(url)]; [None] stands for [null] and [undefined], which
    like the empty string are falsy. *)
Definition formatEbayUrl (url : option string) : string :=
  match url with
  | None => "#"
  | Some "" => "#"
  | Some url =>
      if includes "ebay.com" url then
        let separator := if includes "?" url then "&" else "?" in
        url +:+ separator +:+ "nordt=true&orig_cvip=true&rt=nc"
      else url
  end.

(** The number of question marks of a string. *)
Fixpoint questionMarks (s : string) : nat :=
  match s with
  | EmptyString => 0
  | String c rest =>
      ((if Stdlib.Strings.Ascii.eqb c "?"%char then 1 else 0) + questionMarks rest)%nat
  end.

(** ** Pagination *)

Definition perPage : Z := 15.

(** [Array.prototype.slice(start, end)] for integer arguments: negative
    indices count from the end, and both are clamped to the array. *)
Definition slice {A : Type} (start finish : Z) (l : list A) : list A :=
  let len := Z.of_nat (length l) in
  let k := if start <? 0 then Z.max (len + start) 0 else Z.min start len in
  let final := if finish <? 0 then Z.max (len + finish) 0 else Z.min finish len in
  take (Z.to_nat (final - k)) (drop (Z.to_nat k) l).

(** The rows [renderSalesTable] shows on a page: newest first. *)
Definition paginatedSales {A : Type} (page : Z) (sales : list A) : list A :=
  let start := (page - 1) * perPage in
  let finish := start + perPage in
  slice start finish (reverse sales).

(** [Math.ceil(totalItems / state.pagination.perPage)] *)
Definition totalPages (totalItems : Z) : Z := - ((- totalItems) / perPage).

(** What [updatePagination] writes: the two numbers of the page label
    and whether each button is disabled. *)
Record Pagination : Type := {
  shownPage : Z;
  shownTotal : Z;
  prevDisabled : bool;
  nextDisabled : bool
}.

Definition updatePagination (page totalItems : Z) : Pagination :=
  {| shownPage := page;
     shownTotal := if totalPages totalItems =? 0 then 1 else totalPages totalItems;
     prevDisabled := page <=? 1;
     nextDisabled := page >=? totalPages totalItems |}.

(** The handlers that change [state.pagination.page]. *)
Inductive PageEvent : Type :=
| PrevPage      (* click on #prevPage *)
| NextPage      (* click on #nextPage *)
| ResetPage.    (* tab or filter change: page = 1 *)

Definition handle (page : Z) (e : PageEvent) : Z :=
  match e with
  | PrevPage => if page >? 1 then page - 1 else page
  | NextPage => page + 1
  | ResetPage => 1
  end.

(** ** [throttle] *)

(** A call of the function returned by [throttle(func, wait)] when
    [Date.now()] is [now]: whether [func] is called, and the new
    [lastTime]. *)
Definition throttled (wait : Z) (lastTime now : Z) : bool * Z :=
  if now - lastTime >=? wait then (true, now) else (false, lastTime).

(** The clock readings of the calls that are let through, in a sequence
    of calls. *)
Fixpoint letThrough (wait : Z) (lastTime : Z) (calls : list Z) : list Z :=
  match calls with
  | [] => []
  | now :: rest =>
      let '(called, lastTime') := throttled wait lastTime now in
      if called then now :: letThrough wait lastTime' rest
      else letThrough wait lastTime' rest
  end.

(** ** Properties of the text helpers *)




Lemma prefix_append (sub s t : string) :
  String.prefix sub s = true -> String.prefix sub (s +:+ t) = true.
Proof.
  revert s. induction sub as [|a sub IH]; intros s.
  - intros _. by destruct (s +:+ t).
  - destruct s as [|b s]; simpl; [done|].
    destruct (Stdlib.Strings.Ascii.ascii_dec a b); [apply IH|done].
Qed.

Lemma includes_append (sub s t : string) :
  includes sub s = true -> includes sub (s +:+ t) = true.
Proof.
  induction s as [|c s IH].
  - cbn [includes]. destruct (String.prefix sub "") eqn:Hp; [|done].
    intros _. change ("" +:+ t) with t.
    destruct sub; [|done]. by destruct t.
  - cbn [includes]. change (String c s +:+ t) with (String c (s +:+ t)).
    cbn [includes].
    destruct (String.prefix sub (String c s)) eqn:Hp.
    + intros _. change (String c (s +:+ t)) with (String c s +:+ t).
      by rewrite (prefix_append _ _ t Hp).
    + intros H. rewrite (IH H).
      by destruct (String.prefix sub (String c (s +:+ t))).
Qed.

Lemma includes_questionMark (s : string) :
  includes "?" s = (0 <? questionMarks s)%nat.
Proof.
  induction s as [|c s IH]; [done|].
  cbn [includes questionMarks]. cbn [String.prefix].
  destruct (Stdlib.Strings.Ascii.ascii_dec "?" c) as [<-|Hne].
  - by destruct s.
  - rewrite IH. destruct (Stdlib.Strings.Ascii.eqb_spec c "?"%char) as [->|_]; done.
Qed.

Lemma questionMarks_append (s t : string) :
  questionMarks (s +:+ t) = (questionMarks s + questionMarks t)%nat.
Proof.
  induction s as [|c s IH]; [done|].
  change (String c s +:+ t) with (String c (s +:+ t)).
  cbn [questionMarks]. rewrite IH. lia.
Qed.

Lemma formatEbayUrl_ebay (url : string) :
  includes "ebay.com" url = true ->
  formatEbayUrl (Some url) =
    url +:+ (if includes "?" url then "&" else "?")
        +:+ "nordt=true&orig_cvip=true&rt=nc".
Proof.
  intros H. destruct url as [|c url]; [done|].
  unfold formatEbayUrl. by rewrite H.
Qed.

(** X22: the link of an eBay URL has a query string with exactly one
    more question mark than the URL when the URL had none, and the same
    number otherwise; formatting is not idempotent: a link that is
    formatted again gets the three parameters a second time. *)
Theorem formatEbayUrl_query (url : string) :
  includes "ebay.com" url = true ->
  questionMarks (formatEbayUrl (Some url)) = Nat.max 1 (questionMarks url) /\
  formatEbayUrl (Some (formatEbayUrl (Some url))) =
    formatEbayUrl (Some url) +:+ "&nordt=true&orig_cvip=true&rt=nc".
Proof.
  intros H. pose proof (formatEbayUrl_ebay url H) as Hf.
  assert (questionMarks (formatEbayUrl (Some url)) =
            Nat.max 1 (questionMarks url)) as Hq.
  { rewrite Hf, !questionMarks_append, includes_questionMark.
    destruct (Nat.ltb_spec 0 (questionMarks url)); simpl; lia. }
  split; [done|].
  assert (includes "ebay.com" (formatEbayUrl (Some url)) = true) as He.
  { rewrite Hf. by apply includes_append. }
  rewrite (formatEbayUrl_ebay _ He), includes_questionMark, Hq.
  by destruct (Nat.ltb_spec 0 (Nat.max 1 (questionMarks url))); [|lia].
Qed.

Lemma formatEbayUrl_query_witness :
  questionMarks (formatEbayUrl (Some "https://www.ebay.com/itm/1")) =
    Nat.max 1 (questionMarks "https://www.ebay.com/itm/1") /\
  formatEbayUrl (Some (formatEbayUrl (Some "https://www.ebay.com/itm/1"))) =
    formatEbayUrl (Some "https://www.ebay.com/itm/1")
      +:+ "&nordt=true&orig_cvip=true&rt=nc".
Proof.
  apply (formatEbayUrl_query "https://www.ebay.com/itm/1"). reflexivity.
Defined.

(** ** Properties of the pagination *)

Lemma totalPages_spec (n : Z) :
  (totalPages n - 1) * perPage < n <= totalPages n * perPage.
Proof.
  unfold totalPages, perPage.
  pose proof (Z.div_mod (- n) 15 ltac:(lia)).
  pose proof (Z.mod_pos_bound (- n) 15 ltac:(lia)). lia.
Qed.

(** From page 1 on, a page is the next [perPage] rows of the reversed
    payload. *)
Lemma paginatedSales_chunk {A : Type} (p : nat) (sales : list A) :
  paginatedSales (Z.of_nat (S p)) sales =
    take 15 (drop (15 * p) (reverse sales)).
Proof.
  unfold paginatedSales, slice, perPage.
  set (l := reverse sales). set (n := length l).
  replace (Z.of_nat (S p) - 1) with (Z.of_nat p) by lia.
  destruct (Z.ltb_spec (Z.of_nat p * 15) 0) as [?|_]; [lia|].
  destruct (Z.ltb_spec (Z.of_nat p * 15 + 15) 0) as [?|_]; [lia|].
  destruct (decide (15 * p < n)%nat) as [Hlt|Hge].
  - replace (Z.to_nat (Z.min (Z.of_nat p * 15) (Z.of_nat n)))
      with (15 * p)%nat by lia.
    replace (Z.to_nat (Z.min (Z.of_nat p * 15 + 15) (Z.of_nat n) -
                       Z.min (Z.of_nat p * 15) (Z.of_nat n)))
      with (Nat.min 15 (n - 15 * p))%nat by lia.
    rewrite <- take_take. f_equal. apply take_ge.
    rewrite length_drop. fold n. lia.
  - rewrite !(drop_ge l); [by rewrite !take_nil| fold n; lia | fold n; lia].
Qed.

Lemma chunks_concat {A : Type} (c : nat) (l : list A) (pages : nat) :
  concat ((fun i => take c (drop (c * i) l)) <$> seq 0 pages) =
    take (c * pages) l.
Proof.
  induction pages as [|pages IH].
  - by rewrite Nat.mul_0_r.
  - rewrite seq_S, fmap_app, concat_app, IH. simpl. rewrite app_nil_r.
    rewrite take_take_drop. f_equal. lia.
Qed.

(** X23: the pages partition the table. The pages 1 to [totalPages], in
    this order, are the sales of the payload in reverse order: no sale is
    left out and none is shown on two pages. *)
Theorem pages_partition_sales {A : Type} (sales : list A) :
  concat ((fun p => paginatedSales (Z.of_nat (S p)) sales)
            <$> seq 0 (Z.to_nat (totalPages (Z.of_nat (length sales))))) =
    reverse sales.
Proof.
  erewrite list_fmap_ext; [|intros _ p _; apply paginatedSales_chunk].
  rewrite chunks_concat. apply take_ge. rewrite length_reverse.
  pose proof (totalPages_spec (Z.of_nat (length sales))) as H.
  unfold perPage in H. lia.
Qed.

Lemma paginatedSales_length {A : Type} (p : nat) (sales : list A) :
  length (paginatedSales (Z.of_nat (S p)) sales) =
    Nat.min 15 (length sales - 15 * p).
Proof.
  rewrite paginatedSales_chunk, length_take, length_drop, length_reverse.
  done.
Qed.

(** X24: from page 1 on, the Next button is enabled exactly when the
    next page has a row to show, and a page beyond the last one is
    empty. *)
Theorem next_enabled_iff_more_rows {A : Type} (page : Z) (sales : list A) :
  1 <= page ->
  (nextDisabled (updatePagination page (Z.of_nat (length sales))) = false
     <-> paginatedSales (page + 1) sales <> []) /\
  (totalPages (Z.of_nat (length sales)) < page ->
     paginatedSales page sales = []).
Proof.
  intros Hpage.
  pose proof (totalPages_spec (Z.of_nat (length sales))) as Hspec.
  unfold perPage in Hspec. split.
  - replace (page + 1) with (Z.of_nat (S (Z.to_nat page))) by lia.
    pose proof (paginatedSales_length (Z.to_nat page) sales) as Hlen.
    unfold updatePagination. simpl.
    destruct (Z.geb_spec page (totalPages (Z.of_nat (length sales))))
      as [Hge|Hlt].
    + split; [done|]. intros Hne. exfalso. apply Hne.
      apply length_zero_iff_nil. rewrite Hlen. lia.
    + split; [|done]. intros _ Hnil. rewrite Hnil in Hlen.
      change (length (@nil A)) with 0%nat in Hlen. lia.
  - intros Hgt. apply length_zero_iff_nil.
    replace page with (Z.of_nat (S (Z.to_nat (page - 1)))) by lia.
    rewrite paginatedSales_length. lia.
Qed.

Lemma next_enabled_iff_more_rows_witness :
  (nextDisabled (updatePagination 1 (Z.of_nat (length (seq 0 20)))) = false
     <-> paginatedSales (1 + 1) (seq 0 20) <> []) /\
  (totalPages (Z.of_nat (length (seq 0 20))) < 1 ->
     paginatedSales 1 (seq 0 20) = []).
Proof. apply (next_enabled_iff_more_rows 1 (seq 0 20)). lia. Defined.

(** X25: whatever the sequence of clicks on the two buttons and of tab
    and filter changes, the page number never falls below 1, so the
    [slice] of [renderSalesTable] never gets a negative index (which
    would count from the end of the array): the rows shown are always
    the [perPage] rows that follow the pages before. *)
Theorem page_never_below_one {A : Type} (events : list PageEvent)
    (sales : list A) :
  let page := foldl handle 1 events in
  1 <= page /\
  paginatedSales page sales =
    take 15 (drop (15 * Z.to_nat (page - 1)) (reverse sales)).
Proof.
  assert (forall page, 1 <= page -> 1 <= foldl handle page events) as Hinv.
  { induction events as [|e events IH]; intros page Hpage; [done|].
    simpl. apply IH. destruct e; simpl; [|lia|lia].
    destruct (Z.gtb_spec page 1); lia. }
  intros page. pose proof (Hinv 1 ltac:(lia)) as Hpage. fold page in Hpage.
  split; [done|].
  replace page with (Z.of_nat (S (Z.to_nat (page - 1)))) at 1 by lia.
  apply paginatedSales_chunk.
Qed.

(** ** Properties of [throttle] *)

(** Consecutive elements are at least [wait] apart, the first one from
    [lastTime]. *)
Fixpoint spaced (wait lastTime : Z) (l : list Z) : Prop :=
  match l with
  | [] => True
  | now :: rest => wait <= now - lastTime /\ spaced wait now rest
  end.

(** X26: whatever the clock readings of the calls are (they need not even
    increase), the calls [throttle] lets through are a subsequence of the
    calls, and each comes at least [wait] after the one let through
    before it. *)
Theorem throttle_spacing (wait : Z) (calls : list Z) (lastTime : Z) :
  sublist (letThrough wait lastTime calls) calls /\
  spaced wait lastTime (letThrough wait lastTime calls).
Proof.
  revert lastTime. induction calls as [|now rest IH]; intros lastTime.
  - split; [constructor|done].
  - cbn [letThrough]. unfold throttled.
    destruct (Z.geb_spec (now - lastTime) wait) as [Hge|Hlt].
    + destruct (IH now) as [Hsub Hsp]. split; [by constructor|].
      split; [lia|done].
    + destruct (IH lastTime) as [Hsub Hsp]. split; [by constructor|done].
Qed.

End Table.
